(** * A shallow embedding of the task-file synchronisation of backlog-mcp

    Sources: [src/services/TaskFileManager.ts] (file placement, sync,
    cleanup, task-file format) and [src/server.ts] (the [sync-issues] and
    [update-issues] tool handlers).

    Modelling conventions.
    - A JavaScript string is a Rocq [string]; its characters are the UTF-16
      code units of the string, restricted to U+0000..U+00FF (Latin-1).  On
      that range [trim], [toLowerCase] and the regular-expression classes
      used by the code are written out exactly.
    - The task directory is a tree of entries; [fs.readdir] returns a
      directory's entries in list order and a new entry is appended at the
      end of its directory.
    - A directory listed in [st_denied] is write-protected: creating or
      removing an entry in it fails with [EACCES]; a file path (its folder
      followed by its name) listed there is a read-only file, which
      [fs.writeFile] cannot replace.
    - A path listed in [st_unreadable] cannot be read: [fs.readdir] of such
      a directory and [fs.readFile] of such a file fail with [EACCES].  A
      directory without search permission is described by listing it and
      everything below it in both lists.
    - Asynchronous code runs in a state-and-error monad [M]: a thrown
      exception is [Err], and the effects done before the throw stay. *)

From Stdlib Require Import String Ascii List Bool ZArith Lia RelationClasses Permutation.
Import ListNotations.

Open Scope list_scope.
#[local] Set Warnings "-register-all".

(* ------------------------------------------------------------------ *)
(** ** Characters and strings *)

Definition code (c : ascii) : nat := nat_of_ascii c.

(** [/[A-Z]/] *)
Definition is_upper (c : ascii) : bool := (65 <=? code c) && (code c <=? 90).

(** [/\d/] *)
Definition is_digit (c : ascii) : bool := (48 <=? code c) && (code c <=? 57).

(** The JavaScript [WhiteSpace] and [LineTerminator] code units below
    U+0100: TAB, LF, VT, FF, CR, SPACE and NO-BREAK SPACE. *)
Definition is_js_space (c : ascii) : bool :=
  let n := code c in
  ((9 <=? n) && (n <=? 13)) || (n =? 32) || (n =? 160).

(** [.] in a regular expression without the [s] flag: anything but a line
    terminator. *)
Definition is_dot_char (c : ascii) : bool :=
  negb ((code c =? 10) || (code c =? 13)).

(** [String.prototype.toLowerCase] on Latin-1: A-Z and
    U+00C0..U+00DE except U+00D7 move down by 32. *)
Definition char_to_lower (c : ascii) : ascii :=
  let n := code c in
  if ((65 <=? n) && (n <=? 90)) || ((192 <=? n) && (n <=? 222) && negb (n =? 215))
  then ascii_of_nat (n + 32) else c.

Fixpoint toLowerCase (s : string) : string :=
  match s with
  | EmptyString => EmptyString
  | String c s' => String (char_to_lower c) (toLowerCase s')
  end.

Fixpoint trim_start (s : string) : string :=
  match s with
  | EmptyString => EmptyString
  | String c s' => if is_js_space c then trim_start s' else s
  end.

Fixpoint trim_end (s : string) : string :=
  match s with
  | EmptyString => EmptyString
  | String c s' =>
      let r := trim_end s' in
      match r with
      | EmptyString => if is_js_space c then EmptyString else String c EmptyString
      | _ => String c r
      end
  end.

(** [String.prototype.trim] *)
Definition trim (s : string) : string := trim_end (trim_start s).

Definition LF : ascii := ascii_of_nat 10.

(** [s.split('\n')] *)
Fixpoint split_lines (s : string) : list string :=
  match s with
  | EmptyString => [EmptyString]
  | String c s' =>
      let r := split_lines s' in
      if Ascii.eqb c LF then EmptyString :: r
      else match r with
           | [] => [String c EmptyString]
           | x :: r' => String c x :: r'
           end
  end.

(** [lines.join('\n')] *)
Fixpoint join_lines (l : list string) : string :=
  match l with
  | [] => EmptyString
  | [x] => x
  | x :: l' => (x ++ String LF (join_lines l'))%string
  end.

(** [s.startsWith(p)] *)
Definition startsWith (p s : string) : bool := String.prefix p s.

(** [s.replace(p, '')] for a string pattern [p]: removes its first
    occurrence. *)
Fixpoint replace_first (p s : string) : string :=
  if String.prefix p s then substring (String.length p) (String.length s) s
  else match s with
       | EmptyString => EmptyString
       | String c s' => String c (replace_first p s')
       end.

Fixpoint has_char (a : ascii) (s : string) : bool :=
  match s with
  | EmptyString => false
  | String c s' => Ascii.eqb c a || has_char a s'
  end.

(* ------------------------------------------------------------------ *)
(** ** The regular expressions of TaskFileManager

    Each pattern is a run of [A-Z], a dash, a run of digits and a tail.  The
    character after each run cannot continue the run, so the greedy split
    below is the only way the pattern can match. *)

Fixpoint span (p : ascii -> bool) (s : string) : string * string :=
  match s with
  | EmptyString => (EmptyString, EmptyString)
  | String c s' =>
      if p c then let (a, b) := span p s' in (String c a, b)
      else (EmptyString, s)
  end.

(** [^[A-Z]+-\d+] followed by a tail accepted by [tail]. *)
Definition key_shape (tail : string -> bool) (s : string) : bool :=
  let (u, r) := span is_upper s in
  match u, r with
  | String _ _, String c r' =>
      Ascii.eqb c "-"%char &&
      (let (d, t) := span is_digit r' in
       match d with String _ _ => tail t | EmptyString => false end)
  | _, _ => false
  end.

(** [/^[A-Z]+-\d+$/] : a bare issue key such as [PROJ-123]. *)
Definition bare_key : string -> bool :=
  key_shape (fun t => String.eqb t EmptyString).

(** [/^[A-Z]+-\d+\.md$/] : the name of a task file. *)
Definition task_file_name : string -> bool :=
  key_shape (fun t => String.eqb t ".md").

(** [isCustomParentFolder]: [/^[A-Z]+-\d+[-._].+/]. *)
Definition isCustomParentFolder : string -> bool :=
  key_shape (fun t => match t with
                      | String c (String c2 _) =>
                          (Ascii.eqb c "-"%char || Ascii.eqb c "."%char ||
                           Ascii.eqb c "_"%char) && is_dot_char c2
                      | _ => false
                      end).

(** [path.basename(f, '.md')] for a file name [f]. *)
Definition strip_md (n : string) : string :=
  let l := String.length n in
  if (3 <? l) && String.eqb (substring (l - 3) 3 n) ".md"
  then substring 0 (l - 3) n else n.

Definition md (k : string) : string := (k ++ ".md")%string.

(* ------------------------------------------------------------------ *)
(** ** Task-file content: [generateMarkdownContent] and [readTaskFile] *)

Record TaskFile := mkTaskFile {
  tf_issueKey : string;
  tf_title : string;
  tf_description : string;
  tf_filePath : list string   (** the folder of [filePath], see below *)
}.

(** [generateMarkdownContent] *)
Definition generateMarkdownContent (task : TaskFile) : string :=
  let header := ("# " ++ tf_title task ++ String LF (String LF EmptyString))%string in
  if negb (String.eqb (tf_description task) EmptyString) &&
     negb (String.eqb (trim (tf_description task)) EmptyString)
  then (header ++ tf_description task)%string
  else header.

Fixpoint findIndex_from {A} (p : A -> bool) (i : nat) (l : list A) : option nat :=
  match l with
  | [] => None
  | x :: l' => if p x then Some i else findIndex_from p (S i) l'
  end.

(** The parsing part of [readTaskFile], from the file content to
    [{ title, description }]. *)
Definition parseTaskFile (content : string) : string * string :=
  let lines := split_lines content in
  let title := match find (startsWith "# ") lines with
               | Some titleLine => trim (replace_first "# " titleLine)
               | None => EmptyString
               end in
  let description := match findIndex_from (startsWith "# ") 0 lines with
                     | Some titleIndex => trim (join_lines (skipn (S titleIndex) lines))
                     | None => EmptyString
                     end in
  (title, description).

(* ------------------------------------------------------------------ *)
(** ** Issues *)

Record issue := mkIssue {
  id : Z;
  projectId : Z;
  issueKey : string;
  keyId : Z;
  issueType : string;        (** [issueType.name] *)
  summary : string;
  description : string;      (** a [null] description is [""] *)
  priority : string;         (** [priority.name] *)
  status : string;           (** [status.name] *)
  category : list string;
  versions : list string;
  milestone : list string;
  createdUser : string;      (** [createdUser.name] *)
  created : string;
  parentIssueId : option Z   (** [undefined] is [None] *)
}.

(** [filterIgnoredIssueTypes] *)
Definition filterIgnoredIssueTypes (issues : list issue) (ignoreIssueTypes : list string)
  : list issue :=
  match ignoreIssueTypes with
  | [] => issues
  | _ =>
      let ignoredTypesLower := map toLowerCase ignoreIssueTypes in
      filter (fun i => negb (existsb (String.eqb (toLowerCase (issueType i)))
                                      ignoredTypesLower))
             issues
  end.

(* ------------------------------------------------------------------ *)
(** ** The task directory *)

(** A directory entry, as listed by [fs.readdir(dir, { withFileTypes: true })]. *)
Inductive entry : Type :=
| File (name : string) (content : string)
| Dir (name : string) (entries : list entry).

Definition entry_name (e : entry) : string :=
  match e with File n _ => n | Dir n _ => n end.

(** A directory path relative to the task root, one component per level;
    [path.join(this.tasksDir, ...)] of components is [...], and two
    absolute paths are equal strings exactly when their component lists
    are equal. *)
Definition dirpath := list string.

(** A log line written with [console.error]. *)
Inductive log_msg : Type :=
| LMoved (key : string) (from to : dirpath)
| LMoveFailed (key : string) (from to : dirpath) (err : string)
| LRecovered (key : string) (folder : dirpath)
| LRecoveredCount (n : nat)
| LFiltered (n : nat)
| LRemoveFailed (key : string) (err : string)
| LCleanupFailed (err : string).

(** The effects observed on the file system, newest first. *)
Inductive event : Type :=
| EvWrite (d : dirpath) (n : string)
| EvRemove (d : dirpath) (n : string)
| EvLog (m : log_msg).

Record state := mkState {
  st_rootname : string;          (** [path.basename(this.tasksDir)] *)
  st_root : list entry;          (** the entries of [this.tasksDir] *)
  st_denied : list dirpath;      (** write-protected directories and files *)
  st_unreadable : list dirpath;  (** directories and files that cannot be read *)
  st_trace : list event
}.

Definition set_root (s : state) (r : list entry) : state :=
  mkState (st_rootname s) r (st_denied s) (st_unreadable s) (st_trace s).
Definition emit (s : state) (e : event) : state :=
  mkState (st_rootname s) (st_root s) (st_denied s) (st_unreadable s) (e :: st_trace s).
Definition clear_trace (s : state) : state :=
  mkState (st_rootname s) (st_root s) (st_denied s) (st_unreadable s) [].

(** [path.basename] of a folder. *)
Definition basename (s : state) (d : dirpath) : string :=
  last d (st_rootname s).

(* ------------------------------------------------------------------ *)
(** ** The monad *)

Inductive result (A : Type) : Type :=
| Ok (a : A)
| Err (e : string).
Arguments Ok {A} a.
Arguments Err {A} e.

Definition M (A : Type) : Type := state -> result A * state.

Definition ret {A} (a : A) : M A := fun s => (Ok a, s).
Definition throw {A} (e : string) : M A := fun s => (Err e, s).
Definition bind {A B} (m : M A) (k : A -> M B) : M B :=
  fun s => match m s with
           | (Ok a, s') => k a s'
           | (Err e, s') => (Err e, s')
           end.
(** [try { m } catch (error) { h(error) }] *)
Definition catch {A} (m : M A) (h : string -> M A) : M A :=
  fun s => match m s with
           | (Ok a, s') => (Ok a, s')
           | (Err e, s') => h e s'
           end.
Definition get : M state := fun s => (Ok s, s).
Definition log (m : log_msg) : M unit := fun s => (Ok tt, emit s (EvLog m)).

Notation "x <- m ;; k" := (bind m (fun x => k))
  (at level 61, m at next level, right associativity).
Notation "m ;; k" := (bind m (fun _ => k)) (at level 61, right associativity).

(** [for (const x of l) await f(x)] *)
Fixpoint for_each {A} (l : list A) (f : A -> M unit) : M unit :=
  match l with
  | [] => ret tt
  | x :: l' => f x ;; for_each l' f
  end.

(* ------------------------------------------------------------------ *)
(** ** Tree primitives *)

Fixpoint lookup_dir (n : string) (es : list entry) : option (list entry) :=
  match es with
  | [] => None
  | Dir m sub :: es' => if String.eqb m n then Some sub else lookup_dir n es'
  | File _ _ :: es' => lookup_dir n es'
  end.

Fixpoint lookup_file (n : string) (es : list entry) : option string :=
  match es with
  | [] => None
  | File m c :: es' => if String.eqb m n then Some c else lookup_file n es'
  | Dir _ _ :: es' => lookup_file n es'
  end.

Fixpoint get_dir (p : dirpath) (es : list entry) : option (list entry) :=
  match p with
  | [] => Some es
  | n :: p' => match lookup_dir n es with
               | Some sub => get_dir p' sub
               | None => None
               end
  end.

(** Replace the first directory named [n]. *)
Fixpoint set_dir (n : string) (sub' : list entry) (es : list entry) : list entry :=
  match es with
  | [] => []
  | Dir m sub :: es' => if String.eqb m n then Dir m sub' :: es'
                        else Dir m sub :: set_dir n sub' es'
  | File m c :: es' => File m c :: set_dir n sub' es'
  end.

(** Apply [f] to the entries of the directory at [p]. *)
Fixpoint upd_dir (p : dirpath) (f : list entry -> result (list entry)) (es : list entry)
  : result (list entry) :=
  match p with
  | [] => f es
  | n :: p' => match lookup_dir n es with
               | Some sub => match upd_dir p' f sub with
                             | Ok sub' => Ok (set_dir n sub' es)
                             | Err e => Err e
                             end
               | None => Err "ENOENT"
               end
  end.

(** Write the file [n] in a directory: replace the first file of that name,
    or append a new one. *)
Fixpoint put_file (n c : string) (es : list entry) : list entry :=
  match es with
  | [] => [File n c]
  | File m c0 :: es' => if String.eqb m n then File m c :: es'
                        else File m c0 :: put_file n c es'
  | Dir m sub :: es' => Dir m sub :: put_file n c es'
  end.

(** Remove the first file named [n]. *)
Fixpoint del_file (n : string) (es : list entry) : list entry :=
  match es with
  | [] => []
  | File m c0 :: es' => if String.eqb m n then es' else File m c0 :: del_file n es'
  | Dir m sub :: es' => Dir m sub :: del_file n es'
  end.

Definition is_denied (s : state) (d : dirpath) : bool :=
  existsb (fun x => if list_eq_dec string_dec x d then true else false) (st_denied s).

Definition is_unreadable (s : state) (d : dirpath) : bool :=
  existsb (fun x => if list_eq_dec string_dec x d then true else false) (st_unreadable s).

(** [fs.mkdir(d, { recursive: true })] below the directory [cur]. *)
Fixpoint mkdir_in (den : dirpath -> bool) (cur p : dirpath) (es : list entry)
  : result (list entry) :=
  match p with
  | [] => Ok es
  | n :: p' =>
      match lookup_dir n es with
      | Some sub => match mkdir_in den (cur ++ [n]) p' sub with
                    | Ok sub' => Ok (set_dir n sub' es)
                    | Err e => Err e
                    end
      | None =>
          match lookup_file n es with
          | Some _ => match p' with [] => Err "EEXIST" | _ :: _ => Err "ENOTDIR" end
          | None => if den cur then Err "EACCES"
                    else match mkdir_in den (cur ++ [n]) p' [] with
                         | Ok sub' => Ok (es ++ [Dir n sub'])
                         | Err e => Err e
                         end
          end
      end
  end.

Definition lift_fs (r : result (list entry)) : M unit :=
  fun s => match r with
           | Ok es => (Ok tt, set_root s es)
           | Err e => (Err e, s)
           end.

(** [ensureDir] *)
Definition ensureDir (d : dirpath) : M unit :=
  s <- get ;; lift_fs (mkdir_in (is_denied s) [] d (st_root s)).

(** [fs.readFile(path, 'utf8')] *)
Definition readFile (d : dirpath) (n : string) : M string :=
  s <- get ;;
  match get_dir d (st_root s) with
  | Some es => match lookup_file n es with
               | Some c => if is_unreadable s (d ++ [n]) then throw "EACCES" else ret c
               | None => if lookup_dir n es then throw "EISDIR" else throw "ENOENT"
               end
  | None => throw "ENOENT"
  end.

(** [fs.writeFile(path, content, 'utf8')] *)
Definition writeFile (d : dirpath) (n c : string) : M unit :=
  s <- get ;;
  lift_fs (upd_dir d (fun es => if lookup_dir n es then Err "EISDIR"
                                else match lookup_file n es with
                                     | Some _ => if is_denied s (d ++ [n]) then Err "EACCES"
                                                 else Ok (put_file n c es)
                                     | None => if is_denied s d then Err "EACCES"
                                               else Ok (put_file n c es)
                                     end) (st_root s)) ;;
  fun s' => (Ok tt, emit s' (EvWrite d n)).

(** [fs.rm(path)] on a file *)
Definition rmFile (d : dirpath) (n : string) : M unit :=
  s <- get ;;
  lift_fs (upd_dir d (fun es => match lookup_file n es with
                                | None => if lookup_dir n es then Err "ERR_FS_EISDIR"
                                          else Err "ENOENT"
                                | Some _ => if is_denied s d then Err "EACCES"
                                            else Ok (del_file n es)
                                end) (st_root s)) ;;
  fun s' => (Ok tt, emit s' (EvRemove d n)).

(* ------------------------------------------------------------------ *)
(** ** Scanning the task directory *)

(** [searchTaskFileRecursively], returning the folder of the first file
    named [{issueKey}.md] in depth-first order; [nr] tells the directories
    whose [fs.readdir] fails, which the [catch] skips. *)
Fixpoint search_entry (nr : dirpath -> bool) (k : string) (dir : dirpath) (e : entry)
  : option dirpath :=
  match e with
  | File n _ => if String.eqb n (md k) then Some dir else None
  | Dir n es =>
      if nr (dir ++ [n]) then None else
      (fix go (l : list entry) : option dirpath :=
         match l with
         | [] => None
         | x :: l' => match search_entry nr k (dir ++ [n]) x with
                      | Some p => Some p
                      | None => go l'
                      end
         end) es
  end.

(** The [for (const entry of entries)] loop over the entries of [dir]. *)
Fixpoint search_entries (nr : dirpath -> bool) (k : string) (dir : dirpath) (es : list entry)
  : option dirpath :=
  match es with
  | [] => None
  | x :: es' => match search_entry nr k dir x with
                | Some p => Some p
                | None => search_entries nr k dir es'
                end
  end.

Definition searchTaskFileRecursively (nr : dirpath -> bool) (k : string) (dir : dirpath)
  (es : list entry) : option dirpath :=
  if nr dir then None else search_entries nr k dir es.

(** [findExistingTaskFile] *)
Definition findExistingTaskFile (k : string) : M (option dirpath) :=
  s <- get ;; ret (searchTaskFileRecursively (is_unreadable s) k [] (st_root s)).

(** [taskFileExists] *)
Definition taskFileExists (k : string) : M bool :=
  existingPath <- findExistingTaskFile k ;;
  ret (match existingPath with Some _ => true | None => false end).

(** [name.endsWith('.md')] *)
Definition endsWith_md (n : string) : bool :=
  (3 <=? String.length n) &&
  String.eqb (substring (String.length n - 3) 3 n) ".md".

(** [collectTaskFilesRecursively]: folder and name of every task file,
    skipping the directories whose [fs.readdir] fails. *)
Fixpoint collect_entry (nr : dirpath -> bool) (dir : dirpath) (e : entry)
  : list (dirpath * string) :=
  match e with
  | File n _ => if endsWith_md n && task_file_name n then [(dir, n)] else []
  | Dir n es =>
      if nr (dir ++ [n]) then [] else
      (fix go (l : list entry) : list (dirpath * string) :=
         match l with
         | [] => []
         | x :: l' => collect_entry nr (dir ++ [n]) x ++ go l'
         end) es
  end.

Definition collectTaskFilesRecursively (nr : dirpath -> bool) (dir : dirpath)
  (es : list entry) : list (dirpath * string) :=
  if nr dir then [] else flat_map (collect_entry nr dir) es.

(** [getExistingTaskFiles] *)
Definition getExistingTaskFiles : M (list (dirpath * string)) :=
  s <- get ;; ret (collectTaskFilesRecursively (is_unreadable s) [] (st_root s)).

(** Every file of the tree with its folder, in the traversal order. *)
Fixpoint files_entry (dir : dirpath) (e : entry) : list (dirpath * string * string) :=
  match e with
  | File n c => [(dir, n, c)]
  | Dir n es =>
      (fix go (l : list entry) : list (dirpath * string * string) :=
         match l with
         | [] => []
         | x :: l' => files_entry (dir ++ [n]) x ++ go l'
         end) es
  end.

Definition files_in (dir : dirpath) (es : list entry) : list (dirpath * string * string) :=
  flat_map (files_entry dir) es.

Definition files (s : state) : list (dirpath * string * string) := files_in [] (st_root s).

(** The files that a scan of the tree reaches: those below no directory
    that cannot be listed. *)
Fixpoint vfiles_entry (nr : dirpath -> bool) (dir : dirpath) (e : entry)
  : list (dirpath * string * string) :=
  match e with
  | File n c => [(dir, n, c)]
  | Dir n es =>
      if nr (dir ++ [n]) then [] else
      (fix go (l : list entry) : list (dirpath * string * string) :=
         match l with
         | [] => []
         | x :: l' => vfiles_entry nr (dir ++ [n]) x ++ go l'
         end) es
  end.

Definition vfiles_in (nr : dirpath -> bool) (dir : dirpath) (es : list entry)
  : list (dirpath * string * string) :=
  if nr dir then [] else flat_map (vfiles_entry nr dir) es.

Definition visible_files (s : state) : list (dirpath * string * string) :=
  vfiles_in (is_unreadable s) [] (st_root s).

(** Every directory of the tree, in the traversal order. *)
Fixpoint dirs_entry (dir : dirpath) (e : entry) : list dirpath :=
  match e with
  | File _ _ => []
  | Dir n es =>
      (dir ++ [n]) ::
      (fix go (l : list entry) : list dirpath :=
         match l with
         | [] => []
         | x :: l' => dirs_entry (dir ++ [n]) x ++ go l'
         end) es
  end.

Definition dirs (s : state) : list dirpath := flat_map (dirs_entry []) (st_root s).

Definition fname (x : dirpath * string * string) : string := snd (fst x).
Definition fdir (x : dirpath * string * string) : dirpath := fst (fst x).

(* ------------------------------------------------------------------ *)
(** ** JavaScript [Map]s: [set] keeps the place of an existing key *)

Section JsMap.
Context {K V : Type} (keq : K -> K -> bool).

Fixpoint jsmap_set (k : K) (v : V) (m : list (K * V)) : list (K * V) :=
  match m with
  | [] => [(k, v)]
  | (k', v') :: m' => if keq k' k then (k', v) :: m' else (k', v') :: jsmap_set k v m'
  end.

Fixpoint jsmap_get (k : K) (m : list (K * V)) : option V :=
  match m with
  | [] => None
  | (k', v) :: m' => if keq k' k then Some v else jsmap_get k m'
  end.
End JsMap.

(* ------------------------------------------------------------------ *)
(** ** Parent-child relations *)

(** [if (issue.parentIssueId)]: a set, non-zero parent id. *)
Definition parent_id_set (i : issue) : option Z :=
  match parentIssueId i with
  | Some p => if Z.eqb p 0 then None else Some p
  | None => None
  end.

(** [child.parentIssueId === issue.id] *)
Definition is_child_of (child i : issue) : bool :=
  match parentIssueId child with
  | Some p => Z.eqb p (id i)
  | None => false
  end.

(** The persisted [idToKeyMap] of [.last-sync] as read by [getLastSyncData]:
    [idToKeyMap[id]] is [None] when the property is missing. *)
Definition id_key_map := Z -> option string.

Record node := mkNode {
  n_issue : issue;
  n_parent : option issue;
  n_children : list issue
}.

(** The stub parent built in [buildIssueTreeMap]. *)
Definition stub_parent (i : issue) (pid : Z) (parentKey : string) : issue :=
  mkIssue pid (projectId i) parentKey 0 (issueType i)
          ("Parent Issue " ++ parentKey)%string EmptyString
          (priority i) (status i) [] [] [] (createdUser i) (created i) None.

(** The body of the [issues.forEach] of [buildIssueTreeMap]. *)
Definition tree_node (issues : list issue) (issueMap : list (Z * issue))
  (idToKeyMap : id_key_map) (i : issue) : node :=
  let parent :=
    match parent_id_set i with
    | Some pid =>
        match jsmap_get Z.eqb pid issueMap with
        | Some p => Some p
        | None => match idToKeyMap pid with
                  | Some parentKey =>
                      if String.eqb parentKey EmptyString then None
                      else Some (stub_parent i pid parentKey)
                  | None => None
                  end
        end
    | None => None
    end in
  mkNode i parent (filter (fun child => is_child_of child i) issues).

Definition issue_map (issues : list issue) : list (Z * issue) :=
  fold_left (fun m i => jsmap_set Z.eqb (id i) i m) issues [].

(** [buildIssueTreeMap] *)
Definition buildIssueTreeMap (issues : list issue) (idToKeyMap : id_key_map)
  : list (string * node) :=
  let issueMap := issue_map issues in
  fold_left (fun t i => jsmap_set String.eqb (issueKey i)
                                  (tree_node issues issueMap idToKeyMap i) t)
            issues [].

(* ------------------------------------------------------------------ *)
(** ** Folder placement *)

Definition dirpath_eqb (a b : dirpath) : bool :=
  if list_eq_dec string_dec a b then true else false.

(** [getIssueFolderPath] *)
Definition getIssueFolderPath (i : issue) (allIssues : list issue) : M dirpath :=
  existingPath <- findExistingTaskFile (issueKey i) ;;
  s <- get ;;
  let preserved :=
    match existingPath with
    | Some currentDir =>
        let currentDirName := basename s currentDir in
        if negb (String.eqb currentDirName "others"%string) &&
           (negb (bare_key currentDirName) || isCustomParentFolder currentDirName)
        then Some currentDir else None
    | None => None
    end in
  match preserved with
  | Some currentDir => ret currentDir
  | None =>
      match parent_id_set i with
      | Some pid =>
          match find (fun x => Z.eqb (id x) pid) allIssues with
          | Some parent =>
              parentExistingPath <- findExistingTaskFile (issueKey parent) ;;
              match parentExistingPath with
              | Some parentDir =>
                  if isCustomParentFolder (basename s parentDir) then ret parentDir
                  else ret [issueKey parent]
              | None => ret [issueKey parent]
              end
          | None => ret ["others"%string]
          end
      | None =>
          if existsb (fun child => is_child_of child i) allIssues then
            match existingPath with
            | Some currentDir =>
                if isCustomParentFolder (basename s currentDir) then ret currentDir
                else ret [issueKey i]
            | None => ret [issueKey i]
            end
          else ret ["others"%string]
      end
  end.

(** [issueToTaskFile], keeping the fields the task file is written from
    (url and tags are not written to the file). *)
Definition issueToTaskFile (i : issue) (allIssues : list issue) : M TaskFile :=
  folderPath <- getIssueFolderPath i allIssues ;;
  ret (mkTaskFile (issueKey i) (summary i) (description i) folderPath).

(** [syncIssue] *)
Definition syncIssue (i : issue) (allIssues : list issue) : M unit :=
  catch (task <- issueToTaskFile i allIssues ;;
         ensureDir (tf_filePath task) ;;
         writeFile (tf_filePath task) (md (issueKey i)) (generateMarkdownContent task))
        (fun e => throw ("Failed to sync issue " ++ issueKey i ++ ": " ++ e)%string).

(** [moveTaskFile] *)
Definition moveTaskFile (k : string) (fromDir toDir : dirpath) : M unit :=
  catch (content <- readFile fromDir (md k) ;;
         ensureDir toDir ;;
         writeFile toDir (md k) content ;;
         rmFile fromDir (md k) ;;
         log (LMoved k fromDir toDir))
        (fun e => log (LMoveFailed k fromDir toDir e)).

(** [determineTargetFolderByRelationship] *)
Definition determineTargetFolderByRelationship (i : issue) (parent : option issue)
  (children : list issue) (existingLocations : list (string * dirpath)) : dirpath :=
  match parent with
  | Some p => match jsmap_get String.eqb (issueKey p) existingLocations with
              | Some parentLocation => parentLocation
              | None => [issueKey p]
              end
  | None => match children with
            | [] => ["others"%string]
            | _ => [issueKey i]
            end
  end.

Fixpoint first_location (children : list issue) (locs : list (string * dirpath))
  : option dirpath :=
  match children with
  | [] => None
  | c :: cs => match jsmap_get String.eqb (issueKey c) locs with
               | Some l => Some l
               | None => first_location cs locs
               end
  end.

(** The body of the second pass of [matchCustomFoldersWithIssues]. *)
Definition target_folder (s : state) (locs : list (string * dirpath))
  (k : string) (nd : node) : dirpath :=
  let i := n_issue nd in
  match jsmap_get String.eqb k locs with
  | Some currentLocation =>
      let currentDirName := basename s currentLocation in
      if negb (String.eqb currentDirName "others"%string) && negb (bare_key currentDirName)
      then currentLocation
      else if isCustomParentFolder currentDirName then currentLocation
      else determineTargetFolderByRelationship i (n_parent nd) (n_children nd) locs
  | None =>
      match n_parent nd with
      | Some parent =>
          match jsmap_get String.eqb (issueKey parent) locs with
          | Some parentLocation => parentLocation
          | None => determineTargetFolderByRelationship i (n_parent nd) (n_children nd) locs
          end
      | None =>
          match n_children nd with
          | _ :: _ => match first_location (n_children nd) locs with
                      | Some childLocation => childLocation
                      | None => [issueKey i]
                      end
          | [] => ["others"%string]
          end
      end
  end.

(** The first pass: [existingIssueLocations]. *)
Definition existing_locations (existingFiles : list (dirpath * string))
  : list (string * dirpath) :=
  fold_left (fun m '(d, n) => jsmap_set String.eqb (strip_md n) d m) existingFiles [].

(** [matchCustomFoldersWithIssues] *)
Definition matchCustomFoldersWithIssues (tree : list (string * node))
  : M (list (string * dirpath)) :=
  existingFiles <- getExistingTaskFiles ;;
  s <- get ;;
  let locs := existing_locations existingFiles in
  ret (fold_left (fun m '(k, nd) => jsmap_set String.eqb k (target_folder s locs k nd) m)
                 tree []).

(* ------------------------------------------------------------------ *)
(** ** [syncIssues] *)

(** One iteration of the main loop of [syncIssues]; returns [1] for a
    recovered file, which [recoveredCount] adds up. *)
Definition sync_step (folderMap : list (string * dirpath)) (filteredIssues : list issue)
  (i : issue) : M nat :=
  existingPath <- findExistingTaskFile (issueKey i) ;;
  let targetFolder := match jsmap_get String.eqb (issueKey i) folderMap with
                      | Some t => t
                      | None => ["others"%string]
                      end in
  match existingPath with
  | None =>
      ensureDir targetFolder ;;
      task <- issueToTaskFile i filteredIssues ;;
      let task' := mkTaskFile (tf_issueKey task) (tf_title task)
                              (tf_description task) targetFolder in
      writeFile targetFolder (md (issueKey i)) (generateMarkdownContent task') ;;
      log (LRecovered (issueKey i) targetFolder) ;;
      ret 1
  | Some currentDir =>
      (if dirpath_eqb currentDir targetFolder then syncIssue i filteredIssues
       else moveTaskFile (issueKey i) currentDir targetFolder) ;;
      ret 0
  end.

Fixpoint sync_loop (folderMap : list (string * dirpath)) (filteredIssues : list issue)
  (l : list issue) (recoveredCount : nat) : M nat :=
  match l with
  | [] => ret recoveredCount
  | i :: l' =>
      n <- sync_step folderMap filteredIssues i ;;
      sync_loop folderMap filteredIssues l' (recoveredCount + n)
  end.

(** [syncIssues]; [idToKeyMap] is what [getLastSyncData] read.  The
    closing summary of [organizeIssuesByParent] is computed and never used,
    so it is left out. *)
Definition syncIssues (issues : list issue) (ignoreIssueTypes : list string)
  (idToKeyMap : id_key_map) : M unit :=
  let filteredIssues := filterIgnoredIssueTypes issues ignoreIssueTypes in
  (if length filteredIssues <? length issues
   then log (LFiltered (length issues - length filteredIssues)) else ret tt) ;;
  let issueTreeMap := buildIssueTreeMap filteredIssues idToKeyMap in
  issueToFolderMap <- matchCustomFoldersWithIssues issueTreeMap ;;
  recoveredCount <- sync_loop issueToFolderMap filteredIssues filteredIssues 0 ;;
  (if 0 <? recoveredCount then log (LRecoveredCount recoveredCount) else ret tt).

(* ------------------------------------------------------------------ *)
(** ** Cleanup and the [sync-issues] tool *)

(** [removeTaskFile] *)
Definition removeTaskFile (k : string) : M unit :=
  catch (existingPath <- findExistingTaskFile k ;;
         match existingPath with
         | Some d => rmFile d (md k)
         | None => ret tt
         end)
        (fun e => log (LRemoveFailed k e)).

(** [cleanupRemovedIssues] *)
Definition cleanupRemovedIssues (currentIssueKeys : list string) : M unit :=
  catch (existingFiles <- getExistingTaskFiles ;;
         let existingIssueKeys := map (fun '(_, n) => strip_md n) existingFiles in
         let removedIssueKeys :=
           filter (fun k => negb (existsb (String.eqb k) currentIssueKeys))
                  existingIssueKeys in
         for_each removedIssueKeys removeTaskFile)
        (fun e => log (LCleanupFailed e)).

(** [initialize] *)
Definition initialize : M unit :=
  catch (ensureDir [] ;; ensureDir ["others"%string])
        (fun e => throw ("Failed to initialize tasks directory: " ++ e)%string).

(** [if (lastSyncTime)] *)
Definition truthy_str (o : option string) : bool :=
  match o with
  | Some t => negb (String.eqb t EmptyString)
  | None => false
  end.

(** The file steps of the [sync-issues] handler, after the connection
    test: [lastSyncTime] is what [getLastSyncTime] read and [issues] what the
    remote returned for it ([getIssuesUpdatedSince] or [getIssues]);
    [saveLastSyncTime] then overwrites [.last-sync] with [syncJson]. *)
Definition sync_issues_tool (lastSyncTime : option string) (issues : list issue)
  (ignoreIssueTypes : list string) (idToKeyMap : id_key_map) (syncJson : string)
  : M unit :=
  initialize ;;
  syncIssues issues ignoreIssueTypes idToKeyMap ;;
  (if truthy_str lastSyncTime then ret tt
   else cleanupRemovedIssues (map issueKey issues)) ;;
  catch (writeFile [] ".last-sync"%string syncJson) (fun _ => ret tt).

(* ------------------------------------------------------------------ *)
(** ** The [update-issues] tool *)

Record changes := mkChanges {
  ch_summary : option string;
  ch_description : option string
}.

(** The outcome line the handler pushes to [results] for one key. *)
Inductive key_result : Type :=
| KNotFound (k : string)                       (** Local task file not found *)
| KFetchFailed (k : string)                    (** Failed to fetch from Backlog *)
| KNoChanges (k : string)                      (** No changes detected *)
| KUpdated (k : string) (changesList : list string)
| KUpdateFailed (k : string) (err : string).   (** Update failed *)

(** [readTaskFile] *)
Definition readTaskFile (k : string) : M (option (string * string)) :=
  catch (taskFilePath <- findExistingTaskFile k ;;
         match taskFilePath with
         | None => ret None
         | Some d => content <- readFile d (md k) ;; ret (Some (parseTaskFile content))
         end)
        (fun _ => ret None).

Definition nonempty (s : string) : bool := negb (String.eqb s EmptyString).

(** The comparison of one key's local file with the remote issue: the
    [changes] object and [changesList]. *)
Definition compute_changes (title localDesc : string) (originalIssue : issue)
  : changes * list string :=
  let backlogDesc := description originalIssue in
  let summaryChange :=
    if nonempty title && negb (String.eqb title (summary originalIssue))
    then Some title else None in
  let titleList := match summaryChange with Some _ => ["Title updated"%string] | None => [] end in
  let descPart :=
    if negb (String.eqb localDesc backlogDesc) then
      if negb (nonempty localDesc) && nonempty backlogDesc
      then (None, ["Description update skipped (would remove existing content)"%string])
      else (Some localDesc,
            if nonempty localDesc && nonempty backlogDesc then ["Description updated"%string]
            else if nonempty localDesc && negb (nonempty backlogDesc)
            then ["Description added"%string] else [])
    else (None, []) in
  (mkChanges summaryChange (fst descPart), titleList ++ snd descPart).

(** The body of the [for (const issueKey of issueKeys)] loop.  [getIssue]
    and [updateIssue] are the remote calls ([Err] when they throw); the
    second component is the [updateIssue] call made, if any. *)
Definition update_issue_step (getIssue : string -> result issue)
  (updateIssue : string -> changes -> result unit) (k : string)
  : M (key_result * option changes) :=
  taskData <- readTaskFile k ;;
  match taskData with
  | None => ret (KNotFound k, None)
  | Some (title, desc) =>
      match getIssue k with
      | Err _ => ret (KFetchFailed k, None)
      | Ok originalIssue =>
          let (chg, changesList) := compute_changes title desc originalIssue in
          match ch_summary chg, ch_description chg with
          | None, None => ret (KNoChanges k, None)
          | _, _ =>
              match updateIssue k chg with
              | Ok _ => ret (KUpdated k changesList, Some chg)
              | Err e => ret (KUpdateFailed k e, Some chg)
              end
          end
      end
  end.

Fixpoint update_issues_loop (getIssue : string -> result issue)
  (updateIssue : string -> changes -> result unit) (l : list string)
  : M (list (key_result * option changes)) :=
  match l with
  | [] => ret []
  | k :: l' => r <- update_issue_step getIssue updateIssue k ;;
               rs <- update_issues_loop getIssue updateIssue l' ;;
               ret (r :: rs)
  end.

Definition is_success (r : key_result) : bool :=
  match r with KUpdated _ _ => true | _ => false end.
Definition is_error (r : key_result) : bool :=
  match r with KNotFound _ | KFetchFailed _ | KUpdateFailed _ _ => true | _ => false end.

(** The [update-issues] handler for a non-empty [issueKeys]: the result
    lines, the counts [successCount], [errorCount] and
    [issueKeys.length - successCount - errorCount] of the summary
    ("updated", "errors", "skipped"), and the [updateIssue] calls made. *)
Definition update_issues (getIssue : string -> result issue)
  (updateIssue : string -> changes -> result unit) (issueKeys : list string)
  : M (list key_result * (nat * nat * nat) * list (string * changes)) :=
  rs <- update_issues_loop getIssue updateIssue issueKeys ;;
  let results := map fst rs in
  let successCount := length (filter is_success results) in
  let errorCount := length (filter is_error results) in
  let calls := flat_map (fun '(r, c) => match r, c with
                                        | KUpdated k _, Some ch => [(k, ch)]
                                        | KUpdateFailed k _, Some ch => [(k, ch)]
                                        | _, _ => []
                                        end) rs in
  ret (results, (successCount, errorCount,
                 length issueKeys - successCount - errorCount), calls).

(** The whole [update-issues] handler: the guard [issueKeys.length === 0]
    answers with an error result (its text, after the cross-mark emoji,
    is the message below) before any file is read; other lists go on to
    [update_issues]. *)
Definition update_issues_tool (getIssue : string -> result issue)
  (updateIssue : string -> changes -> result unit) (issueKeys : list string)
  : M (list key_result * (nat * nat * nat) * list (string * changes)) :=
  match issueKeys with
  | [] => throw "No issue keys provided. Please specify at least one issue key."
  | _ :: _ => update_issues getIssue updateIssue issueKeys
  end.

(* ------------------------------------------------------------------ *)
(** ** The [task-file] resource *)

(** The handler of [task://{issueKey}] for a string [key]: [tasksDir] is
    [getTasksDirectory()]; a thrown [Error] shows as ["Error: " ++ message]
    in the template string of the [catch]. *)
Definition task_file_resource (tasksDir key : string) : M string :=
  catch (let filePath := (tasksDir ++ "/" ++ key ++ ".md")%string in
         exists_ <- taskFileExists key ;;
         if negb exists_ then throw ("Task file for " ++ key ++ " not found")%string
         else ret ("Task file for " ++ key ++ " located at " ++ filePath)%string)
        (fun e => throw ("Failed to read task file: Error: " ++ e)%string).

(* ------------------------------------------------------------------ *)
(** ** Views used by the proofs *)

Definition named (n : string) (x : dirpath * string * string) : bool := String.eqb (fname x) n.

Definition is_task_file (x : dirpath * string * string) : bool :=
  endsWith_md (fname x) && task_file_name (fname x).

Definition dirs_in (dir : dirpath) (es : list entry) : list dirpath :=
  flat_map (dirs_entry dir) es.

(** [m] relates its initial and final states by [R], whatever it returns. *)
Definition inv_prog {A} (R : state -> state -> Prop) (m : M A) : Prop :=
  forall s r s', m s = (r, s') -> R s s'.

(** [m] only reads the state. *)
Definition readonly {A} (m : M A) : Prop :=
  forall s r s', m s = (r, s') -> s' = s.

Definition same_cfg (s s' : state) : Prop :=
  st_rootname s' = st_rootname s /\ st_denied s' = st_denied s /\
  st_unreadable s' = st_unreadable s.

Definition files_rel (Q : list (dirpath * string * string) -> list (dirpath * string * string) -> Prop)
  (s s' : state) : Prop := same_cfg s s' /\ Q (files s) (files s').

(** The files selected by [P] are left as they are. *)
Definition frame (P : dirpath * string * string -> bool) (l l' : list (dirpath * string * string))
  : Prop := filter P l' = filter P l.

Definition has_name (n : string) (l : list (dirpath * string * string)) : Prop :=
  exists x, In x l /\ fname x = n.

(** [P] selects no file named [n]. *)
Definition off_name (P : dirpath * string * string -> bool) (n : string) : Prop :=
  forall x, fname x = n -> P x = false.

(** No file name disappears. *)
Definition grows (l l' : list (dirpath * string * string)) : Prop :=
  forall n, has_name n l -> has_name n l'.


(** The list of folders is the same. *)
Definition dirs_same (s s' : state) : Prop := dirs s' = dirs s.

(** Selects the files not named like a task file. *)
Definition not_task_named (x : dirpath * string * string) : bool :=
  negb (task_file_name (fname x)).

(** No "recovered" log line is in the trace. *)
Definition no_recovery (t : list event) : Prop :=
  forall k d, ~ In (EvLog (LRecovered k d)) t.

(** The events added on the way from [s] to [s'] hold no "recovered" line. *)
Definition recovery_free (s s' : state) : Prop :=
  no_recovery (st_trace s) -> no_recovery (st_trace s').

(** No two entries of a directory share a name, at every level: the shape
    of a real directory tree. *)
Fixpoint names_distinct (l : list string) : bool :=
  match l with
  | [] => true
  | x :: l' => negb (existsb (String.eqb x) l') && names_distinct l'
  end.

Fixpoint wf_entry (e : entry) : bool :=
  match e with
  | File _ _ => true
  | Dir _ es =>
      names_distinct (map entry_name es) &&
      (fix go (l : list entry) : bool :=
         match l with
         | [] => true
         | x :: l' => wf_entry x && go l'
         end) es
  end.

Definition wf_tree (es : list entry) : bool :=
  names_distinct (map entry_name es) && forallb wf_entry es.

(** The configuration is kept, and so is the shape of the tree. *)
Definition wf_rel (s s' : state) : Prop :=
  same_cfg s s' /\ (wf_tree (st_root s) = true -> wf_tree (st_root s') = true).

(** The number of files named [{k}.md]. *)
Definition cnt (k : string) (l : list (dirpath * string * string)) : nat :=
  length (filter (named (md k)) l).

(** A task file whose key [path.basename(file, '.md')] is not in [keys]. *)
Definition task_key_outside (keys : list string) (x : dirpath * string * string) : bool :=
  is_task_file x && negb (existsb (String.eqb (strip_md (fname x))) keys).

(* ------------------------------------------------------------------ *)
(** ** Sample data *)

Definition sample_issue (i : Z) (key ty : string) (parent : option Z) : issue :=
  mkIssue i 1 key i ty ("Issue " ++ key)%string EmptyString "Normal"%string "Open"%string
          [] [] [] "owner"%string "2024-05-01"%string parent.

Definition sample_state (root : list entry) : state := mkState "tasks"%string root [] [] [].

Definition no_keys : id_key_map := fun _ => None.

(* ================================================================== *)
(** * Lemmas on the task directory *)

Section entry_ind'.
Variable P : entry -> Prop.
Hypothesis HF : forall n c, P (File n c).
Hypothesis HD : forall n es, Forall P es -> P (Dir n es).

Fixpoint entry_ind' (e : entry) : P e :=
  match e with
  | File n c => HF n c
  | Dir n es =>
      HD n es ((fix go (l : list entry) : Forall P l :=
                  match l with
                  | [] => Forall_nil P
                  | x :: l' => @Forall_cons _ P x l' (entry_ind' x) (go l')
                  end) es)
  end.
End entry_ind'.

Lemma files_entry_Dir dir n es :
  files_entry dir (Dir n es) = files_in (dir ++ [n]) es.
Proof.
  induction es as [|x es IH]; simpl in *; [reflexivity|]. now rewrite IH.
Qed.

Lemma dirs_entry_Dir dir n es :
  dirs_entry dir (Dir n es) = (dir ++ [n]) :: flat_map (dirs_entry (dir ++ [n])) es.
Proof.
  induction es as [|x es IH]; simpl in *; [reflexivity|].
  apply (f_equal (@tl _)) in IH. simpl in IH. now rewrite IH.
Qed.

Lemma search_entry_Dir nr k dir n es :
  search_entry nr k dir (Dir n es) = searchTaskFileRecursively nr k (dir ++ [n]) es.
Proof.
  simpl. unfold searchTaskFileRecursively. destruct (nr (dir ++ [n])); [reflexivity|].
  induction es as [|x es IH]; simpl; [reflexivity|]. now rewrite IH.
Qed.

Lemma collect_entry_Dir nr dir n es :
  collect_entry nr dir (Dir n es) = collectTaskFilesRecursively nr (dir ++ [n]) es.
Proof.
  simpl. unfold collectTaskFilesRecursively. destruct (nr (dir ++ [n])); [reflexivity|].
  induction es as [|x es IH]; simpl; [reflexivity|]. now rewrite IH.
Qed.

Lemma vfiles_entry_Dir nr dir n es :
  vfiles_entry nr dir (Dir n es) = vfiles_in nr (dir ++ [n]) es.
Proof.
  simpl. unfold vfiles_in. destruct (nr (dir ++ [n])); [reflexivity|].
  induction es as [|x es IH]; simpl; [reflexivity|]. now rewrite IH.
Qed.

Lemma find_app {A} (p : A -> bool) l1 l2 :
  find p (l1 ++ l2) = match find p l1 with Some x => Some x | None => find p l2 end.
Proof. induction l1 as [|x l1 IH]; simpl; [reflexivity|]. destruct (p x); auto. Qed.

Lemma search_entries_spec nr k dir es :
  search_entries nr k dir es = option_map fdir (find (named (md k)) (flat_map (vfiles_entry nr dir) es)).
Proof.
  revert dir. induction es as [|e es IH]; intros dir; [reflexivity|].
  simpl search_entries. simpl flat_map. rewrite find_app.
  assert (He : forall dir, search_entry nr k dir e =
                           option_map fdir (find (named (md k)) (vfiles_entry nr dir e))).
  { clear. induction e as [n c|n es Hes] using entry_ind'; intros dir.
    - simpl. unfold named, fname; simpl. destruct (String.eqb n (md k)); reflexivity.
    - rewrite search_entry_Dir, vfiles_entry_Dir. unfold searchTaskFileRecursively, vfiles_in.
      destruct (nr (dir ++ [n])); [reflexivity|]. generalize (dir ++ [n]) as d.
      induction Hes as [|x es Hx Hes IH]; intros d; [reflexivity|].
      simpl. rewrite find_app, Hx.
      destruct (find (named (md k)) (vfiles_entry nr d x)); simpl; auto. }
  rewrite He. destruct (find (named (md k)) (vfiles_entry nr dir e)); simpl; auto.
Qed.

(** The scan for [{issueKey}.md] finds the first such file that it can
    reach. *)
Lemma search_spec nr k dir es :
  searchTaskFileRecursively nr k dir es =
  option_map fdir (find (named (md k)) (vfiles_in nr dir es)).
Proof.
  unfold searchTaskFileRecursively, vfiles_in. destruct (nr dir); [reflexivity|].
  apply search_entries_spec.
Qed.

Lemma collect_entries_spec nr dir es :
  flat_map (collect_entry nr dir) es =
  map (fun x => (fdir x, fname x)) (filter is_task_file (flat_map (vfiles_entry nr dir) es)).
Proof.
  revert dir. induction es as [|e es IH]; intros dir; [reflexivity|].
  simpl flat_map. rewrite filter_app, map_app, IH. f_equal. clear.
  revert dir. induction e as [n c|n es Hes] using entry_ind'; intros dir.
  - simpl. unfold is_task_file, fname; simpl. destruct (endsWith_md n && task_file_name n); reflexivity.
  - rewrite collect_entry_Dir, vfiles_entry_Dir. unfold collectTaskFilesRecursively, vfiles_in.
    destruct (nr (dir ++ [n])); [reflexivity|]. generalize (dir ++ [n]) as d.
    induction Hes as [|x es Hx Hes IH]; intros d; [reflexivity|].
    simpl. rewrite filter_app, map_app, Hx. f_equal. apply IH.
Qed.

(** The collected task files are the reachable files with a task-file
    name, in the traversal order. *)
Lemma collect_spec nr dir es :
  collectTaskFilesRecursively nr dir es =
  map (fun x => (fdir x, fname x)) (filter is_task_file (vfiles_in nr dir es)).
Proof.
  unfold collectTaskFilesRecursively, vfiles_in. destruct (nr dir); [reflexivity|].
  apply collect_entries_spec.
Qed.

Lemma vfiles_entry_sub nr dir e x :
  In x (vfiles_entry nr dir e) -> In x (files_entry dir e).
Proof.
  revert dir. induction e as [n c|n es Hes] using entry_ind'; intros dir; [exact (fun H => H)|].
  rewrite vfiles_entry_Dir, files_entry_Dir. unfold vfiles_in.
  destruct (nr (dir ++ [n])); [contradiction|]. generalize (dir ++ [n]) as d.
  induction Hes as [|y es Hy Hes IH]; intros d; [contradiction|].
  simpl. rewrite !in_app_iff. intros [H|H]; [left; now apply Hy|right; now apply IH].
Qed.

(** A reachable file is a file of the tree. *)
Lemma vfiles_sub nr dir es x : In x (vfiles_in nr dir es) -> In x (files_in dir es).
Proof.
  unfold vfiles_in, files_in. destruct (nr dir); [contradiction|].
  rewrite !in_flat_map. intros (e & He & Hx). exists e. split; [exact He|].
  exact (vfiles_entry_sub nr dir e x Hx).
Qed.

Lemma vfiles_entry_all nr dir e :
  (forall p, nr p = false) -> vfiles_entry nr dir e = files_entry dir e.
Proof.
  intros Hnr. revert dir. induction e as [n c|n es Hes] using entry_ind'; intros dir; [reflexivity|].
  rewrite vfiles_entry_Dir, files_entry_Dir. unfold vfiles_in. rewrite Hnr.
  generalize (dir ++ [n]) as d.
  induction Hes as [|y es Hy Hes IH]; intros d; [reflexivity|].
  simpl. rewrite Hy. f_equal. apply IH.
Qed.

(** When every directory can be listed, a scan reaches every file. *)
Lemma vfiles_all nr dir es :
  (forall p, nr p = false) -> vfiles_in nr dir es = files_in dir es.
Proof.
  intros Hnr. unfold vfiles_in, files_in. rewrite Hnr.
  induction es as [|e es IH]; [reflexivity|]. simpl. rewrite (vfiles_entry_all nr dir e Hnr).
  f_equal. exact IH.
Qed.

Lemma is_unreadable_nil s p : st_unreadable s = [] -> is_unreadable s p = false.
Proof. unfold is_unreadable. intros ->. reflexivity. Qed.

Lemma visible_files_sub s x : In x (visible_files s) -> In x (files s).
Proof. apply vfiles_sub. Qed.

Lemma visible_files_all s : st_unreadable s = [] -> visible_files s = files s.
Proof. intros H. apply vfiles_all. intros p. now apply is_unreadable_nil. Qed.

Lemma files_in_app dir l1 l2 : files_in dir (l1 ++ l2) = files_in dir l1 ++ files_in dir l2.
Proof. apply flat_map_app. Qed.

Lemma files_in_cons dir e es :
  files_in dir (e :: es) = files_entry dir e ++ files_in dir es.
Proof. reflexivity. Qed.

Lemma lookup_dir_split n es sub :
  lookup_dir n es = Some sub ->
  exists e1 e2, es = e1 ++ Dir n sub :: e2 /\
                forall sub', set_dir n sub' es = e1 ++ Dir n sub' :: e2.
Proof.
  induction es as [|e es IH]; simpl; [discriminate|].
  destruct e as [m c|m sub0].
  - intros H. destruct (IH H) as (e1 & e2 & -> & Hs).
    exists (File m c :: e1), e2. split; [reflexivity|]. intros sub'. simpl. now rewrite Hs.
  - destruct (String.eqb m n) eqn:E.
    + apply String.eqb_eq in E. subst m. intros [= ->]. exists [], es. split; reflexivity.
    + intros H. destruct (IH H) as (e1 & e2 & -> & Hs).
      exists (Dir m sub0 :: e1), e2. split; [reflexivity|]. intros sub'. simpl. rewrite ?E. now rewrite Hs.
Qed.

(** Updating one directory changes the file list only in that directory's
    own stretch of it. *)
Lemma upd_dir_files p f es es' :
  upd_dir p f es = Ok es' ->
  exists es0 es0', get_dir p es = Some es0 /\ f es0 = Ok es0' /\
    forall dir, exists l1 l2,
      files_in dir es = l1 ++ files_in (dir ++ p) es0 ++ l2 /\
      files_in dir es' = l1 ++ files_in (dir ++ p) es0' ++ l2.
Proof.
  revert es es'. induction p as [|n p IH]; intros es es' H; simpl in H.
  - exists es, es'. split; [reflexivity|]. split; [exact H|].
    intros dir. exists [], []. rewrite !app_nil_r. split; reflexivity.
  - destruct (lookup_dir n es) as [sub|] eqn:L; [|discriminate].
    destruct (upd_dir p f sub) as [sub'|e] eqn:U; [|discriminate].
    injection H as <-. destruct (IH _ _ U) as (es0 & es0' & G & F & Hf).
    exists es0, es0'. simpl. rewrite L. split; [exact G|]. split; [exact F|].
    intros dir. destruct (lookup_dir_split _ _ _ L) as (e1 & e2 & Hes & Hs).
    destruct (Hf (dir ++ [n])) as (l1 & l2 & H1 & H2).
    exists (files_in dir e1 ++ l1), (l2 ++ files_in dir e2).
    rewrite Hs, Hes, !files_in_app, !files_in_cons, !files_entry_Dir, H1, H2.
    rewrite <- !app_assoc. split; reflexivity.
Qed.

Lemma put_file_shape n c es :
  (exists e1 e2 c0, es = e1 ++ File n c0 :: e2 /\ put_file n c es = e1 ++ File n c :: e2)
  \/ (lookup_file n es = None /\ put_file n c es = es ++ [File n c]).
Proof.
  induction es as [|e es IH]; simpl.
  - right. split; reflexivity.
  - destruct e as [m c0|m sub].
    + destruct (String.eqb m n) eqn:E.
      * apply String.eqb_eq in E. subst m. left. exists [], es, c0. split; reflexivity.
      * destruct IH as [(e1 & e2 & c1 & -> & ->)|[L ->]].
        -- left. exists (File m c0 :: e1), e2, c1. split; reflexivity.
        -- right. split; [exact L|reflexivity].
    + destruct IH as [(e1 & e2 & c1 & -> & ->)|[L ->]].
      * left. exists (Dir m sub :: e1), e2, c1. split; reflexivity.
      * right. split; [exact L|reflexivity].
Qed.

Lemma del_file_shape n c0 es :
  lookup_file n es = Some c0 ->
  exists e1 e2, es = e1 ++ File n c0 :: e2 /\ del_file n es = e1 ++ e2.
Proof.
  induction es as [|e es IH]; simpl; [discriminate|].
  destruct e as [m c|m sub].
  - destruct (String.eqb m n) eqn:E.
    + apply String.eqb_eq in E. subst m. intros [= ->]. exists [], es. split; reflexivity.
    + intros H. destruct (IH H) as (e1 & e2 & -> & ->).
      exists (File m c :: e1), e2. split; reflexivity.
  - intros H. destruct (IH H) as (e1 & e2 & -> & ->).
    exists (Dir m sub :: e1), e2. split; reflexivity.
Qed.

Lemma mkdir_in_files den p : forall cur es es',
  mkdir_in den cur p es = Ok es' -> forall dir, files_in dir es' = files_in dir es.
Proof.
  induction p as [|n p IH]; intros cur es es' H dir; simpl in H.
  - now injection H as ->.
  - destruct (lookup_dir n es) as [sub|] eqn:L.
    + destruct (mkdir_in den (cur ++ [n]) p sub) as [sub'|e] eqn:Mk; [|discriminate].
      injection H as <-. destruct (lookup_dir_split _ _ _ L) as (e1 & e2 & -> & Hs).
      rewrite Hs, !files_in_app, !files_in_cons, !files_entry_Dir.
      now rewrite (IH _ _ _ Mk).
    + destruct (lookup_file n es); [destruct p; discriminate|].
      destruct (den cur); [discriminate|].
      destruct (mkdir_in den (cur ++ [n]) p []) as [sub'|e] eqn:Mk; [|discriminate].
      injection H as <-. rewrite files_in_app, files_in_cons, files_entry_Dir.
      rewrite (IH _ _ _ Mk). simpl. now rewrite app_nil_r.
Qed.

Lemma dirs_in_app dir l1 l2 : dirs_in dir (l1 ++ l2) = dirs_in dir l1 ++ dirs_in dir l2.
Proof. apply flat_map_app. Qed.

Lemma dirs_in_cons dir e es :
  dirs_in dir (e :: es) = dirs_entry dir e ++ dirs_in dir es.
Proof. reflexivity. Qed.

Lemma del_file_dirs n es dir : dirs_in dir (del_file n es) = dirs_in dir es.
Proof.
  induction es as [|e es IH]; [reflexivity|].
  destruct e as [m c|m sub]; simpl.
  - destruct (String.eqb m n); [reflexivity|]. exact IH.
  - unfold dirs_in in *. simpl. now rewrite IH.
Qed.

Lemma upd_dir_dirs p f es es' :
  upd_dir p f es = Ok es' ->
  (forall es0 es0' d, f es0 = Ok es0' -> dirs_in d es0' = dirs_in d es0) ->
  forall dir, dirs_in dir es' = dirs_in dir es.
Proof.
  revert es es'. induction p as [|n p IH]; intros es es' H Hf dir; simpl in H.
  - now apply Hf.
  - destruct (lookup_dir n es) as [sub|] eqn:L; [|discriminate].
    destruct (upd_dir p f sub) as [sub'|e] eqn:U; [|discriminate].
    injection H as <-. destruct (lookup_dir_split _ _ _ L) as (e1 & e2 & -> & Hs).
    rewrite Hs, !dirs_in_app, !dirs_in_cons, !dirs_entry_Dir.
    fold (dirs_in (dir ++ [n]) sub') (dirs_in (dir ++ [n]) sub).
    now rewrite (IH _ _ U Hf).
Qed.

(* ------------------------------------------------------------------ *)
(** ** Effects of the primitives *)



Lemma inv_bind {A B} R `{Transitive _ R} (m : M A) (k : A -> M B) :
  inv_prog R m -> (forall a, inv_prog R (k a)) -> inv_prog R (bind m k).
Proof.
  intros Hm Hk s r s' E. unfold bind in E.
  destruct (m s) as [[a|e] s1] eqn:Em.
  - transitivity s1; [exact (Hm _ _ _ Em)|exact (Hk a _ _ _ E)].
  - injection E as _ <-. exact (Hm _ _ _ Em).
Qed.

Lemma inv_catch {A} R `{Transitive _ R} (m : M A) (h : string -> M A) :
  inv_prog R m -> (forall e, inv_prog R (h e)) -> inv_prog R (catch m h).
Proof.
  intros Hm Hh s r s' E. unfold catch in E.
  destruct (m s) as [[a|e] s1] eqn:Em.
  - injection E as _ <-. exact (Hm _ _ _ Em).
  - transitivity s1; [exact (Hm _ _ _ Em)|exact (Hh e _ _ _ E)].
Qed.

Lemma readonly_inv {A} R `{Reflexive _ R} (m : M A) : readonly m -> inv_prog R m.
Proof. intros Hm s r s' E. rewrite (Hm _ _ _ E). reflexivity. Qed.

Lemma readonly_bind {A B} (m : M A) (k : A -> M B) :
  readonly m -> (forall a, readonly (k a)) -> readonly (bind m k).
Proof.
  intros Hm Hk s r s' E. unfold bind in E.
  destruct (m s) as [[a|e] s1] eqn:Em; pose proof (Hm _ _ _ Em); subst s1.
  - exact (Hk a _ _ _ E).
  - now injection E as _ <-.
Qed.

Lemma readonly_ret {A} (a : A) : readonly (ret a).
Proof. intros s r s' E. now injection E as _ <-. Qed.

Lemma readonly_throw {A} e : readonly (@throw A e).
Proof. intros s r s' E. now injection E as _ <-. Qed.

Lemma readonly_get : readonly get.
Proof. intros s r s' E. now injection E as _ <-. Qed.

Lemma readonly_catch {A} (m : M A) (h : string -> M A) :
  readonly m -> (forall e, readonly (h e)) -> readonly (catch m h).
Proof.
  intros Hm Hh s r s' E. unfold catch in E.
  destruct (m s) as [[a|e] s1] eqn:Em; pose proof (Hm _ _ _ Em); subst s1.
  - now injection E as _ <-.
  - exact (Hh e _ _ _ E).
Qed.

Create HintDb readonly.
#[export] Hint Resolve readonly_ret readonly_throw readonly_get : readonly.

Ltac readonly_tac :=
  repeat match goal with
  | |- readonly (bind _ _) => apply readonly_bind; [|intro]
  | |- readonly (catch _ _) => apply readonly_catch; [|intro]
  | |- readonly (match ?x with _ => _ end) => destruct x
  | |- readonly (let (_, _) := ?x in _) => destruct x
  | |- readonly (if ?b then _ else _) => destruct b
  | _ => solve [auto with readonly]
  end.

Lemma findExistingTaskFile_readonly k : readonly (findExistingTaskFile k).
Proof. unfold findExistingTaskFile. readonly_tac. Qed.

Lemma getExistingTaskFiles_readonly : readonly getExistingTaskFiles.
Proof. unfold getExistingTaskFiles. readonly_tac. Qed.

Lemma readFile_readonly d n : readonly (readFile d n).
Proof. unfold readFile. readonly_tac. Qed.

#[export] Hint Resolve findExistingTaskFile_readonly getExistingTaskFiles_readonly
  readFile_readonly : readonly.

Lemma getIssueFolderPath_readonly i all : readonly (getIssueFolderPath i all).
Proof. unfold getIssueFolderPath. readonly_tac. Qed.

Lemma issueToTaskFile_readonly i all : readonly (issueToTaskFile i all).
Proof. unfold issueToTaskFile. apply readonly_bind; [apply getIssueFolderPath_readonly|].
  intros; apply readonly_ret. Qed.

Lemma matchCustomFoldersWithIssues_readonly t : readonly (matchCustomFoldersWithIssues t).
Proof. unfold matchCustomFoldersWithIssues. readonly_tac. Qed.

#[export] Hint Resolve getIssueFolderPath_readonly issueToTaskFile_readonly
  matchCustomFoldersWithIssues_readonly : readonly.

Lemma files_in_mid dir e1 n c e2 :
  files_in dir (e1 ++ File n c :: e2) = files_in dir e1 ++ (dir, n, c) :: files_in dir e2.
Proof. rewrite files_in_app, files_in_cons. reflexivity. Qed.

Lemma writeFile_spec d n c s r s' :
  writeFile d n c s = (r, s') ->
  (s' = s /\ exists e, r = Err e) \/
  (r = Ok tt /\ same_cfg s s' /\
   ((exists l1 l2 c0, files s = l1 ++ (d, n, c0) :: l2 /\ files s' = l1 ++ (d, n, c) :: l2) \/
    (exists l1 l2, files s = l1 ++ l2 /\ files s' = l1 ++ (d, n, c) :: l2))).
Proof.
  unfold writeFile, bind, get, lift_fs.
  destruct (upd_dir d _ (st_root s)) as [es'|e] eqn:U.
  - intros E. injection E as <- <-. right. split; [reflexivity|].
    split; [repeat split|].
    destruct (upd_dir_files _ _ _ _ U) as (es0 & es0' & _ & F & Hf).
    destruct (lookup_dir n es0); [discriminate|].
    assert (F' : put_file n c es0 = es0').
    { destruct (lookup_file n es0);
        [destruct (is_denied s (d ++ [n]))|destruct (is_denied s d)];
        congruence. }
    subst es0'.
    destruct (Hf []) as (l1 & l2 & H1 & H2). unfold files; simpl. rewrite H1, H2.
    destruct (put_file_shape n c es0) as [(e1 & e2 & c0 & -> & ->)|[_ ->]].
    + left. exists (l1 ++ files_in d e1), (files_in d e2 ++ l2), c0.
      rewrite !files_in_mid. simpl. rewrite <- !app_assoc. split; reflexivity.
    + right. exists (l1 ++ files_in d es0), l2. simpl.
      rewrite files_in_app. simpl. rewrite <- !app_assoc. split; reflexivity.
  - intros E. injection E as <- <-. left. split; [reflexivity|]. eauto.
Qed.

Lemma rmFile_spec d n s r s' :
  rmFile d n s = (r, s') ->
  (s' = s /\ exists e, r = Err e) \/
  (r = Ok tt /\ same_cfg s s' /\ dirs s' = dirs s /\
   exists l1 l2 c0, files s = l1 ++ (d, n, c0) :: l2 /\ files s' = l1 ++ l2).
Proof.
  unfold rmFile, bind, get, lift_fs.
  destruct (upd_dir d _ (st_root s)) as [es'|e] eqn:U.
  - intros E. injection E as <- <-. right. split; [reflexivity|].
    split; [repeat split|]. split.
    + unfold dirs; simpl. apply (upd_dir_dirs _ _ _ _ U). intros es0 es0' dd F.
      destruct (lookup_file n es0); [|destruct (lookup_dir n es0); discriminate].
      destruct (is_denied s d); [discriminate|]. injection F as <-. apply del_file_dirs.
    + destruct (upd_dir_files _ _ _ _ U) as (es0 & es0' & _ & F & Hf).
      destruct (lookup_file n es0) as [c0|] eqn:Lf;
        [|destruct (lookup_dir n es0); discriminate].
      destruct (is_denied s d); [discriminate|]. injection F as <-.
      destruct (Hf []) as (l1 & l2 & H1 & H2). unfold files; simpl. rewrite H1, H2.
      destruct (del_file_shape _ _ _ Lf) as (e1 & e2 & -> & ->).
      exists (l1 ++ files_in d e1), (files_in d e2 ++ l2), c0.
      rewrite files_in_mid, files_in_app. simpl. rewrite <- !app_assoc. split; reflexivity.
  - intros E. injection E as <- <-. left. split; [reflexivity|]. eauto.
Qed.

Lemma ensureDir_spec d s r s' :
  ensureDir d s = (r, s') ->
  same_cfg s s' /\ files s' = files s /\ (forall e, r = Err e -> s' = s).
Proof.
  unfold ensureDir, bind, get, lift_fs.
  destruct (mkdir_in _ [] d (st_root s)) as [es'|e] eqn:Mk; intros E; injection E as <- <-.
  - split; [repeat split|]. split; [|discriminate].
    unfold files; simpl. exact (mkdir_in_files _ _ _ _ _ Mk []).
  - split; [repeat split|]. split; reflexivity.
Qed.

Lemma log_spec m s r s' :
  log m s = (r, s') -> r = Ok tt /\ s' = emit s (EvLog m).
Proof. unfold log. intros E. now injection E as <- <-. Qed.

Lemma files_emit s e : files (emit s e) = files s.
Proof. reflexivity. Qed.
Lemma dirs_emit s e : dirs (emit s e) = dirs s.
Proof. reflexivity. Qed.
Lemma files_clear_trace s : files (clear_trace s) = files s.
Proof. reflexivity. Qed.

(** Relations that only look at the configuration and the file list. *)
Section FilesRel.
Variable Q : list (dirpath * string * string) -> list (dirpath * string * string) -> Prop.
Context `{PreOrder _ Q}.

#[export] Instance files_rel_preorder : PreOrder (files_rel Q).
Proof.
  split.
  - intros s. split; [repeat split|reflexivity].
  - intros s1 s2 s3 [[A1 [B1 D1]] C1] [[A2 [B2 D2]] C2]. split; [repeat split; congruence|].
    etransitivity; eauto.
Qed.

Lemma inv_log m : inv_prog (files_rel Q) (log m).
Proof.
  intros s r s' E. apply log_spec in E as [_ ->].
  split; [repeat split|]. rewrite files_emit. reflexivity.
Qed.

Lemma inv_ensureDir d : inv_prog (files_rel Q) (ensureDir d).
Proof.
  intros s r s' E. apply ensureDir_spec in E as (Hc & Hf & _).
  split; [exact Hc|]. rewrite Hf. reflexivity.
Qed.

Lemma inv_readonly {A} (m : M A) : readonly m -> inv_prog (files_rel Q) m.
Proof. apply readonly_inv. typeclasses eauto. Qed.
End FilesRel.

(* ------------------------------------------------------------------ *)
(** ** Frame: each step touches only the files named after its key *)

#[export] Instance frame_preorder P : PreOrder (frame P).
Proof. split; [intros l; reflexivity|intros l1 l2 l3 H1 H2; unfold frame in *; congruence]. Qed.

Lemma filter_mid {A} (P : A -> bool) (l1 l2 : list A) (x : A) :
  P x = false -> filter P (l1 ++ x :: l2) = filter P (l1 ++ l2).
Proof. intros Hx. rewrite !filter_app. simpl. now rewrite Hx. Qed.

Lemma inv_writeFile_frame P d n c :
  off_name P n -> inv_prog (files_rel (frame P)) (writeFile d n c).
Proof.
  intros HP s r s' E. apply writeFile_spec in E as [[-> _]|(_ & Hc & Hs)].
  - split; [repeat split|reflexivity].
  - split; [exact Hc|]. unfold frame.
    destruct Hs as [(l1 & l2 & c0 & -> & ->)|(l1 & l2 & -> & ->)].
    + rewrite !filter_mid by (apply HP; reflexivity). reflexivity.
    + rewrite filter_mid by (apply HP; reflexivity). reflexivity.
Qed.

Lemma inv_rmFile_frame P d n :
  off_name P n -> inv_prog (files_rel (frame P)) (rmFile d n).
Proof.
  intros HP s r s' E. apply rmFile_spec in E as [[-> _]|(_ & Hc & _ & l1 & l2 & c0 & E1 & E2)].
  - split; [repeat split|reflexivity].
  - split; [exact Hc|]. unfold frame. rewrite E1, E2.
    rewrite filter_mid by (apply HP; reflexivity). reflexivity.
Qed.

Ltac inv_tac :=
  repeat match goal with
  | |- inv_prog _ (bind _ _) => apply inv_bind; [typeclasses eauto| |intro]
  | |- inv_prog _ (catch _ _) => apply inv_catch; [typeclasses eauto| |intro]
  | |- inv_prog _ (match ?x with _ => _ end) => destruct x
  | |- inv_prog _ (let (_, _) := ?x in _) => destruct x
  | |- inv_prog _ (if ?b then _ else _) => destruct b
  | |- inv_prog (files_rel _) (log _) => apply inv_log; typeclasses eauto
  | |- inv_prog (files_rel _) (ensureDir _) => apply inv_ensureDir; typeclasses eauto
  | |- inv_prog (files_rel _) _ =>
      apply inv_readonly; [typeclasses eauto|solve [auto with readonly]]
  end.

Lemma moveTaskFile_frame P k from to :
  off_name P (md k) -> inv_prog (files_rel (frame P)) (moveTaskFile k from to).
Proof.
  intros HP. unfold moveTaskFile.
  inv_tac; (apply inv_writeFile_frame || apply inv_rmFile_frame); exact HP.
Qed.

Lemma syncIssue_frame P i all :
  off_name P (md (issueKey i)) -> inv_prog (files_rel (frame P)) (syncIssue i all).
Proof.
  intros HP. unfold syncIssue. inv_tac; apply inv_writeFile_frame; exact HP.
Qed.

Lemma sync_step_frame P fm all i :
  off_name P (md (issueKey i)) -> inv_prog (files_rel (frame P)) (sync_step fm all i).
Proof.
  intros HP. unfold sync_step. inv_tac.
  - apply syncIssue_frame; exact HP.
  - apply moveTaskFile_frame; exact HP.
  - apply inv_writeFile_frame; exact HP.
Qed.

Lemma sync_loop_frame P fm all l n :
  (forall j, In j l -> off_name P (md (issueKey j))) ->
  inv_prog (files_rel (frame P)) (sync_loop fm all l n).
Proof.
  revert n. induction l as [|j l IH]; intros n HP; simpl.
  - inv_tac.
  - apply inv_bind; [typeclasses eauto| |intro].
    + apply sync_step_frame, HP. now left.
    + apply IH. intros j' Hj'. apply HP. now right.
Qed.

Lemma syncIssues_frame P issues ign idm :
  (forall j, In j (filterIgnoredIssueTypes issues ign) -> off_name P (md (issueKey j))) ->
  inv_prog (files_rel (frame P)) (syncIssues issues ign idm).
Proof.
  intros HP. unfold syncIssues. inv_tac. apply sync_loop_frame, HP.
Qed.

(* ------------------------------------------------------------------ *)
(** ** Strings: keys, task-file names and folder names *)

Lemma str_length_app (a b : string) : String.length (a ++ b) = String.length a + String.length b.
Proof. induction a; simpl; auto. Qed.

Lemma str_app_assoc (a b c : string) : ((a ++ b) ++ c = a ++ (b ++ c))%string.
Proof. induction a; simpl; congruence. Qed.


Lemma str_app_inj_r (a b c : string) : (a ++ c = b ++ c)%string -> a = b.
Proof.
  revert b. induction a as [|x a IH]; intros [|y b] H; simpl in H; auto.
  - apply (f_equal String.length) in H. simpl in H. rewrite str_length_app in H. lia.
  - apply (f_equal String.length) in H. simpl in H. rewrite str_length_app in H. lia.
  - injection H as -> H. f_equal. now apply IH.
Qed.

Lemma md_inj a b : md a = md b -> a = b.
Proof. apply str_app_inj_r. Qed.

Lemma substring_app_l (a b : string) n :
  substring (String.length a) n (a ++ b) = substring 0 n b.
Proof. induction a; simpl; auto. Qed.

Lemma substring_0_app (a b : string) : substring 0 (String.length a) (a ++ b) = a.
Proof. induction a; simpl; [destruct b; reflexivity|congruence]. Qed.

Lemma strip_md_md k : k <> EmptyString -> strip_md (md k) = k.
Proof.
  intros Hk. unfold strip_md, md. rewrite str_length_app.
  replace (String.length k + String.length ".md" - 3) with (String.length k) by (simpl; lia).
  rewrite substring_app_l, substring_0_app.
  assert (L : (3 <? String.length k + String.length ".md") = true).
  { apply Nat.ltb_lt. destruct k; [congruence|simpl; lia]. }
  now rewrite L.
Qed.

Lemma endsWith_md_md k : endsWith_md (md k) = true.
Proof.
  unfold endsWith_md, md. rewrite str_length_app.
  replace (String.length k + String.length ".md" - 3) with (String.length k) by (simpl; lia).
  rewrite substring_app_l.
  assert (L : (3 <=? String.length k + String.length ".md") = true).
  { apply Nat.leb_le. simpl; lia. }
  now rewrite L.
Qed.

Lemma span_spec p s u r : span p s = (u, r) -> s = (u ++ r)%string.
Proof.
  revert u r. induction s as [|c s IH]; intros u r H; simpl in H.
  - now injection H as <- <-.
  - destruct (p c).
    + destruct (span p s) as [a b] eqn:E. injection H as <- <-. simpl. f_equal. now apply IH.
    + now injection H as <- <-.
Qed.


(** Both [key_shape]s look at the same tail. *)
Lemma key_shape_tail f s :
  key_shape f s = true ->
  exists u c r d t, span is_upper s = (u, String c r) /\ u <> EmptyString /\
    c = "-"%char /\ span is_digit r = (d, t) /\ d <> EmptyString /\ f t = true.
Proof.
  unfold key_shape. destruct (span is_upper s) as [u r] eqn:Su.
  destruct u as [|x u]; [discriminate|]. destruct r as [|c r]; [discriminate|].
  intros H. apply andb_prop in H as [Hc H]. apply Ascii.eqb_eq in Hc.
  destruct (span is_digit r) as [d t] eqn:Sd. destruct d as [|y d]; [discriminate|].
  exists (String x u), c, r, (String y d), t. repeat split; try congruence; assumption.
Qed.





Lemma task_file_name_md n : task_file_name n = true -> md (strip_md n) = n.
Proof.
  intros H. apply key_shape_tail in H as (u & c & r & d & t & Su & Hu & Hc & Sd & Hd & Ht).
  apply String.eqb_eq in Ht. subst t.
  apply span_spec in Su. apply span_spec in Sd. subst r.
  assert (E : n = md (u ++ String c d)).
  { rewrite Su. unfold md. rewrite str_app_assoc. reflexivity. }
  rewrite E, strip_md_md; [reflexivity|]. destruct u; [congruence|discriminate].
Qed.

Lemma bare_not_custom n : bare_key n = true -> isCustomParentFolder n = false.
Proof.
  intros H. destruct (isCustomParentFolder n) eqn:C; [|reflexivity].
  apply key_shape_tail in H as (u & c & r & d & t & Su & _ & _ & Sd & _ & Ht).
  apply key_shape_tail in C as (u' & c' & r' & d' & t' & Su' & _ & _ & Sd' & _ & Ht').
  rewrite Su in Su'. injection Su' as <- <- <-. rewrite Sd in Sd'. injection Sd' as <- <-.
  apply String.eqb_eq in Ht. subst t. discriminate.
Qed.

Lemma md_not_last_sync k : md k <> ".last-sync"%string.
Proof.
  intros H. apply (f_equal endsWith_md) in H. rewrite endsWith_md_md in H. discriminate.
Qed.

(* ------------------------------------------------------------------ *)
(** ** JS maps built by [set] in a loop *)

Section JsMapFacts.
Context {K V : Type} (keq : K -> K -> bool).
Hypothesis keq_spec : forall a b, keq a b = true <-> a = b.

Lemma keq_refl a : keq a a = true.
Proof. now apply keq_spec. Qed.

Lemma jsmap_get_set k k' (v : V) m :
  jsmap_get keq k (jsmap_set keq k' v m) =
  if keq k' k then Some v else jsmap_get keq k m.
Proof.
  induction m as [|[k0 v0] m IH]; simpl.
  - reflexivity.
  - destruct (keq k0 k') eqn:E1; simpl.
    + apply keq_spec in E1. subst k0. destruct (keq k' k); reflexivity.
    + destruct (keq k0 k) eqn:E2; [|exact IH].
      destruct (keq k' k) eqn:E3; [|reflexivity].
      apply keq_spec in E2. apply keq_spec in E3. subst. now rewrite keq_refl in E1.
Qed.

Context {A : Type} (upd : list (K * V) -> A -> list (K * V)) (f : A -> K) (g : A -> V).
Hypothesis upd_spec : forall m x, upd m x = jsmap_set keq (f x) (g x) m.

Lemma jsmap_fold_notin k l m :
  (forall x, In x l -> f x <> k) ->
  jsmap_get keq k (fold_left upd l m) = jsmap_get keq k m.
Proof.
  revert m. induction l as [|x l IH]; intros m H; simpl; [reflexivity|].
  rewrite IH by (intros y Hy; apply H; now right).
  rewrite upd_spec, jsmap_get_set.
  destruct (keq (f x) k) eqn:E; [|reflexivity].
  apply keq_spec in E. exfalso. apply (H x); auto. now left.
Qed.

Lemma key_in_dec k l :
  (exists x, In x l /\ f x = k) \/ (forall x, In x l -> f x <> k).
Proof.
  destruct (existsb (fun x => keq (f x) k) l) eqn:E.
  - left. apply existsb_exists in E as [x [Hx Ex]]. exists x. split; auto. now apply keq_spec.
  - right. intros x Hx Ex. apply keq_spec in Ex.
    assert (existsb (fun x => keq (f x) k) l = true) by (apply existsb_exists; eauto).
    congruence.
Qed.

Lemma jsmap_fold_all k v l m :
  (forall x, In x l -> f x = k -> g x = v) ->
  (exists x, In x l /\ f x = k) ->
  jsmap_get keq k (fold_left upd l m) = Some v.
Proof.
  revert m. induction l as [|x l IH]; intros m H [y [Hy Hk]]; [destruct Hy|]. simpl.
  destruct (key_in_dec k l) as [[z [Hz Hzk]]|N].
  - apply IH; [intros w Hw; apply H; now right|]. now exists z.
  - rewrite jsmap_fold_notin by exact N.
    destruct Hy as [<-|Hy]; [|exfalso; now apply (N y)].
    rewrite upd_spec, jsmap_get_set, <- Hk, keq_refl. f_equal. apply H; auto. now left.
Qed.
End JsMapFacts.

Lemma jsmap_set_keys {K V} (keq : K -> K -> bool) (k : K) (v : V) m :
  (forall a b, keq a b = true <-> a = b) ->
  map fst (jsmap_set keq k v m) =
  if existsb (fun k' => keq k' k) (map fst m) then map fst m else map fst m ++ [k].
Proof.
  intros Hk. induction m as [|[k0 v0] m IH]; simpl; [reflexivity|].
  destruct (keq k0 k); simpl; [reflexivity|].
  rewrite IH. destruct (existsb _ _); reflexivity.
Qed.

Lemma jsmap_set_nodup {K V} (keq : K -> K -> bool) (k : K) (v : V) m :
  (forall a b, keq a b = true <-> a = b) ->
  NoDup (map fst m) -> NoDup (map fst (jsmap_set keq k v m)).
Proof.
  intros Hk Hm. rewrite jsmap_set_keys by exact Hk.
  destruct (existsb (fun k' => keq k' k) (map fst m)) eqn:E; [exact Hm|].
  apply NoDup_app; auto using NoDup_cons, NoDup_nil.
  - intros x Hx [Ex|[]]. subst x. assert (existsb (fun k' => keq k' k) (map fst m) = true).
    { apply existsb_exists. exists k. split; auto. now apply Hk. }
    congruence.
Qed.


Lemma nodup_map_inj {A B} (f : A -> B) l x y :
  NoDup (map f l) -> In x l -> In y l -> f x = f y -> x = y.
Proof.
  induction l as [|z l IH]; simpl; [tauto|]. intros Hn Hx Hy E.
  inversion Hn as [|? ? Hz Hl]; subst.
  destruct Hx as [<-|Hx], Hy as [<-|Hy]; auto.
  - exfalso. apply Hz. rewrite E. now apply in_map.
  - exfalso. apply Hz. rewrite <- E. now apply in_map.
Qed.

Lemma nodup_fst_in {A B} (l : list (A * B)) k v v' :
  NoDup (map fst l) -> In (k, v) l -> In (k, v') l -> v = v'.
Proof.
  intros Hn H1 H2. assert (E := nodup_map_inj fst l _ _ Hn H1 H2 eq_refl).
  now injection E.
Qed.

(** [matchCustomFoldersWithIssues] reads the tree once and decides each key. *)
Lemma matchCustom_eq tree s :
  matchCustomFoldersWithIssues tree s =
  (Ok (fold_left (fun m '(k, nd) =>
         jsmap_set String.eqb k
           (target_folder s (existing_locations
              (collectTaskFilesRecursively (is_unreadable s) [] (st_root s))) k nd) m)
       tree []), s).
Proof. reflexivity. Qed.


Section FoldSet.
Context {K V A : Type} (keq : K -> K -> bool).
Hypothesis keq_spec : forall a b, keq a b = true <-> a = b.
Context (upd : list (K * V) -> A -> list (K * V)) (f : A -> K) (g : A -> V).
Hypothesis upd_spec : forall m x, upd m x = jsmap_set keq (f x) (g x) m.

Lemma fold_set_nodup l m : NoDup (map fst m) -> NoDup (map fst (fold_left upd l m)).
Proof.
  revert m. induction l as [|x l IH]; intros m Hm; simpl; [exact Hm|].
  apply IH. rewrite upd_spec. now apply jsmap_set_nodup.
Qed.

End FoldSet.

Lemma issue_tree_nodup issues idm : NoDup (map fst (buildIssueTreeMap issues idm)).
Proof.
  apply (fold_set_nodup String.eqb String.eqb_eq _ issueKey
           (tree_node issues (issue_map issues) idm)); [reflexivity|constructor].
Qed.


(** With distinct keys, the node stored for an issue is the one built from it. *)
Lemma issue_tree_get issues idm x :
  NoDup (map issueKey issues) -> In x issues ->
  jsmap_get String.eqb (issueKey x) (buildIssueTreeMap issues idm) =
  Some (tree_node issues (issue_map issues) idm x).
Proof.
  intros Hn Hx.
  apply (jsmap_fold_all String.eqb String.eqb_eq _ issueKey
           (tree_node issues (issue_map issues) idm)); [reflexivity| |eauto].
  intros y Hy Ey. now rewrite (nodup_map_inj issueKey issues y x Hn Hy Hx Ey).
Qed.

Lemma jsmap_get_in {K V} (keq : K -> K -> bool) (k : K) (v : V) m :
  (forall a b, keq a b = true <-> a = b) ->
  jsmap_get keq k m = Some v -> In (k, v) m.
Proof.
  intros Hk. induction m as [|[k0 v0] m IH]; simpl; [discriminate|].
  destruct (keq k0 k) eqn:E; intros H.
  - apply Hk in E. injection H as ->. subst. now left.
  - right. now apply IH.
Qed.

(** The folder chosen for key [k] in the second pass of
    [matchCustomFoldersWithIssues]. *)
Lemma folder_map_get s locs tree k nd :
  NoDup (map fst tree) -> In (k, nd) tree ->
  jsmap_get String.eqb k
    (fold_left (fun m '(k, nd) => jsmap_set String.eqb k (target_folder s locs k nd) m) tree [])
  = Some (target_folder s locs k nd).
Proof.
  intros Hn Hin.
  apply (jsmap_fold_all String.eqb String.eqb_eq _ fst
           (fun p => target_folder s locs (fst p) (snd p)));
    [intros m [a b]; reflexivity| |exists (k, nd); auto].
  intros [k' nd'] Hy Ey. simpl in *. subst k'.
  now rewrite (nodup_fst_in tree k nd' nd Hn Hy Hin).
Qed.


(* ------------------------------------------------------------------ *)
(** ** Running a bind or a catch step by step *)

Lemma bind_cases {A B} (m : M A) (k : A -> M B) s r s' :
  bind m k s = (r, s') ->
  exists r1 s1, m s = (r1, s1) /\
    match r1 with Ok a => k a s1 = (r, s') | Err e => r = Err e /\ s' = s1 end.
Proof.
  unfold bind. destruct (m s) as [[a|e] s1]; intros E.
  - exists (Ok a), s1. auto.
  - exists (Err e), s1. injection E as <- <-. auto.
Qed.

Lemma catch_cases {A} (m : M A) (h : string -> M A) s r s' :
  catch m h s = (r, s') ->
  exists r1 s1, m s = (r1, s1) /\
    match r1 with Ok a => r = Ok a /\ s' = s1 | Err e => h e s1 = (r, s') end.
Proof.
  unfold catch. destruct (m s) as [[a|e] s1]; intros E.
  - exists (Ok a), s1. injection E as <- <-. auto.
  - exists (Err e), s1. auto.
Qed.

Lemma findExisting_eq k s :
  findExistingTaskFile k s = (Ok (searchTaskFileRecursively (is_unreadable s) k [] (st_root s)), s).
Proof. reflexivity. Qed.

Lemma dirpath_eqb_refl d : dirpath_eqb d d = true.
Proof. unfold dirpath_eqb. destruct (list_eq_dec string_dec d d); congruence. Qed.

Lemma dirpath_eqb_true a b : dirpath_eqb a b = true -> a = b.
Proof. unfold dirpath_eqb. destruct (list_eq_dec string_dec a b); congruence. Qed.

Lemma in_mid_iff {A} (x y : A) l1 l2 : In x (l1 ++ y :: l2) <-> x = y \/ In x (l1 ++ l2).
Proof. rewrite !in_app_iff. simpl. intuition (subst; auto). Qed.

(* ------------------------------------------------------------------ *)
(** ** A task file kept in its folder *)







Section KeptFolder.
Variables (k : string) (d : dirpath) (rn : string).
Hypothesis Hother : last d rn <> "others"%string.
Hypothesis Hbare : bare_key (last d rn) = false.




End KeptFolder.

Lemma log_or_ret_spec (b : bool) m s (r : result unit) s' :
  (if b then log m else ret tt) s = (r, s') ->
  r = Ok tt /\ same_cfg s s' /\ files s' = files s /\ st_root s' = st_root s.
Proof.
  destruct b; intros E; [unfold log in E|unfold ret in E]; injection E as <- <-;
    repeat split; reflexivity.
Qed.

(** The pass of [syncIssues] after the filter message. *)
Lemma syncIssues_cases issues ign idm s r s' :
  syncIssues issues ign idm s = (r, s') ->
  exists s1 r2 s2,
    same_cfg s s1 /\ st_root s1 = st_root s /\
    sync_loop (fold_left (fun m '(k, nd) =>
                 jsmap_set String.eqb k
                   (target_folder s1 (existing_locations
                      (collectTaskFilesRecursively (is_unreadable s1) [] (st_root s1))) k nd) m)
                 (buildIssueTreeMap (filterIgnoredIssueTypes issues ign) idm) [])
              (filterIgnoredIssueTypes issues ign) (filterIgnoredIssueTypes issues ign) 0 s1
      = (r2, s2) /\
    same_cfg s2 s' /\ files s' = files s2 /\
    (forall n, r2 = Ok n -> r = Ok tt) /\ (forall e, r2 = Err e -> r = Err e).
Proof.
  intros E. unfold syncIssues in E.
  apply bind_cases in E as (r1 & s1 & E1 & E).
  apply log_or_ret_spec in E1 as (-> & Hc1 & _ & Hr1).
  apply bind_cases in E as (r3 & s3 & E3 & E). rewrite matchCustom_eq in E3.
  injection E3 as <- <-.
  apply bind_cases in E as (r2 & s2 & E2 & E).
  exists s1, r2, s2. split; [exact Hc1|]. split; [exact Hr1|]. split; [exact E2|].
  destruct r2 as [n|e].
  - apply log_or_ret_spec in E as (-> & Hc & Hf & _).
    split; [exact Hc|]. split; [exact Hf|]. split; [reflexivity|discriminate].
  - destruct E as [-> ->]. split; [repeat split|]. split; [reflexivity|].
    split; [discriminate|]. intros e' He. now injection He as ->.
Qed.

(* ================================================================== *)
(** * The claims *)

#[local] Open Scope string_scope.
#[local] Open Scope list_scope.

(** ** Custom folders *)




(** ** Task-file content *)

Lemma split_lines_nonnil s : split_lines s <> [].
Proof.
  destruct s as [|c s]; simpl; [discriminate|].
  destruct (Ascii.eqb c LF); [discriminate|]. destruct (split_lines s); discriminate.
Qed.

Lemma join_lines_cons_string c x r :
  join_lines (String c x :: r) = String c (join_lines (x :: r)).
Proof. destruct r; reflexivity. Qed.

Lemma join_split_lines s : join_lines (split_lines s) = s.
Proof.
  induction s as [|c s IH]; [reflexivity|]. simpl.
  destruct (Ascii.eqb c LF) eqn:E.
  - apply Ascii.eqb_eq in E. subst c.
    destruct (split_lines s) eqn:Es; [now apply split_lines_nonnil in Es|].
    simpl. now rewrite <- IH.
  - destruct (split_lines s) as [|x r] eqn:Es; [now apply split_lines_nonnil in Es|].
    rewrite join_lines_cons_string, IH. reflexivity.
Qed.

Lemma split_lines_app_LF a b :
  has_char LF a = false -> split_lines (a ++ String LF b) = a :: split_lines b.
Proof.
  induction a as [|c a IH]; intros H; [reflexivity|].
  simpl in H. apply orb_false_iff in H as [Hc Ha]. simpl. rewrite Hc, IH by exact Ha.
  reflexivity.
Qed.

Lemma substring_0_long s m : String.length s <= m -> substring 0 m s = s.
Proof.
  revert m. induction s as [|c s IH]; intros [|m] H; simpl in *; try lia; try reflexivity.
  f_equal. apply IH. lia.
Qed.

Lemma replace_first_header t : replace_first "# " ("# " ++ t) = t.
Proof.
  destruct t as [|c t]; simpl; [reflexivity|].
  f_equal. apply substring_0_long. lia.
Qed.

Lemma trim_LF s : trim (String LF s) = trim s.
Proof. reflexivity. Qed.

(** ** Stub parents *)

Lemma issue_map_absent issues pid :
  (forall y, In y issues -> id y <> pid) -> jsmap_get Z.eqb pid (issue_map issues) = None.
Proof.
  intros H. unfold issue_map.
  rewrite (jsmap_fold_notin Z.eqb Z.eqb_eq _ id (fun i => i)); [reflexivity|reflexivity|exact H].
Qed.

Lemma generate_shape k t desc f :
  generateMarkdownContent (mkTaskFile k t desc f) =
  (("# " ++ t) ++ String LF (String LF
     (if negb (String.eqb desc EmptyString) && negb (String.eqb (trim desc) EmptyString)
      then desc else EmptyString)))%string.
Proof.
  unfold generateMarkdownContent. simpl tf_title. simpl tf_description.
  destruct (_ && _); rewrite str_app_assoc; [|reflexivity]. simpl. rewrite str_app_assoc. reflexivity.
Qed.

Lemma prefix_header t : startsWith "# " ("# " ++ t) = true.
Proof. destruct t; reflexivity. Qed.

Lemma join_lines_blank l : l <> [] -> join_lines (EmptyString :: l) = String LF (join_lines l).
Proof. destruct l; [congruence|reflexivity]. Qed.

Lemma trim_empty_desc desc :
  trim (if negb (String.eqb desc EmptyString) && negb (String.eqb (trim desc) EmptyString)
        then desc else EmptyString) = trim desc.
Proof.
  destruct (String.eqb desc EmptyString) eqn:E1; simpl.
  - apply String.eqb_eq in E1. now subst.
  - destruct (String.eqb (trim desc) EmptyString) eqn:E2; simpl; [|reflexivity].
    apply String.eqb_eq in E2. now rewrite E2.
Qed.

(** C7 (amended).  For a title with no line feed and any description,
    parsing the generated content gives back the trimmed title and the
    trimmed description. *)
Theorem markdown_round_trip k t desc f :
  has_char LF t = false ->
  parseTaskFile (generateMarkdownContent (mkTaskFile k t desc f)) = (trim t, trim desc).
Proof.
  intros Ht. rewrite generate_shape. unfold parseTaskFile.
  rewrite split_lines_app_LF by exact Ht.
  set (D := if negb (String.eqb desc EmptyString) && negb (String.eqb (trim desc) EmptyString)
            then desc else EmptyString).
  assert (Hs : split_lines (String LF D) = EmptyString :: split_lines D) by reflexivity.
  cbn [find findIndex_from]. rewrite !prefix_header, Hs.
  cbn [skipn]. rewrite join_lines_blank by apply split_lines_nonnil.
  rewrite trim_LF, join_split_lines, replace_first_header. unfold D.
  now rewrite trim_empty_desc.
Qed.

Lemma markdown_round_trip_witness :
  has_char LF " Fix login " = false /\
  parseTaskFile (generateMarkdownContent (mkTaskFile "A-1" " Fix login " "Steps" [])) =
    (trim " Fix login ", trim "Steps").
Proof.
  split; [reflexivity|]. apply markdown_round_trip. reflexivity.
Defined.

(** C7, counterexample.  A title with a line feed does not come back: its
    second line is read as the description. *)
Lemma multiline_title_not_round_trip :
  parseTaskFile (generateMarkdownContent
                   (mkTaskFile "A-1" ("a" ++ String LF "b") EmptyString [])) = ("a", "b") /\
  trim ("a" ++ String LF "b") <> "a".
Proof. split; [vm_compute; reflexivity|discriminate]. Qed.

(** C8.  Let [X] be one of the issues, with distinct keys, whose parent id
    [pid] is set and belongs to none of the issues.  The tree node stored
    for [X]'s key is built from [X].  If [idToKeyMap] knows a key [k] for
    [pid], its parent is a stub with id [pid], key [k], an empty
    description and the type, priority, status and creator of [X]; if it
    knows none, [X] has no parent.  (Keys read from [.last-sync] are issue
    keys, never the empty string, which the code treats as absent.) *)
Theorem stub_parent_for_absent_parent issues idm x pid :
  In x issues -> NoDup (map issueKey issues) ->
  parentIssueId x = Some pid -> pid <> 0%Z ->
  (forall y, In y issues -> id y <> pid) ->
  exists nd,
    jsmap_get String.eqb (issueKey x) (buildIssueTreeMap issues idm) = Some nd /\
    n_issue nd = x /\
    (forall k, idm pid = Some k -> k <> EmptyString ->
       exists p, n_parent nd = Some p /\ id p = pid /\ issueKey p = k /\
                 description p = EmptyString /\ issueType p = issueType x /\
                 priority p = priority x /\ status p = status x /\
                 createdUser p = createdUser x) /\
    (idm pid = None -> n_parent nd = None).
Proof.
  intros Hx Hn Hp Hz Hout. exists (tree_node issues (issue_map issues) idm x).
  split; [now apply issue_tree_get|]. split; [reflexivity|].
  assert (Hset : parent_id_set x = Some pid).
  { unfold parent_id_set. rewrite Hp. apply Z.eqb_neq in Hz. now rewrite Hz. }
  unfold tree_node. rewrite Hset, issue_map_absent by exact Hout. simpl n_parent.
  split.
  - intros k Hk Hne. rewrite Hk. apply String.eqb_neq in Hne. rewrite Hne.
    eexists. split; [reflexivity|]. simpl. repeat split.
  - intros Hk. now rewrite Hk.
Qed.

Lemma stub_parent_for_absent_parent_witness :
  let iss := [sample_issue 5 "A-5" "Task" (Some 1%Z); sample_issue 6 "A-6" "Bug" None] in
  let idm := fun z : Z => if Z.eqb z 1 then Some "A-1" else None in
  (In (sample_issue 5 "A-5" "Task" (Some 1%Z)) iss /\ NoDup (map issueKey iss) /\
   parentIssueId (sample_issue 5 "A-5" "Task" (Some 1%Z)) = Some 1%Z /\ 1%Z <> 0%Z /\
   (forall y, In y iss -> id y <> 1%Z)) /\
  exists nd,
    jsmap_get String.eqb "A-5" (buildIssueTreeMap iss idm) = Some nd /\
    n_issue nd = sample_issue 5 "A-5" "Task" (Some 1%Z) /\
    (forall k, idm 1%Z = Some k -> k <> EmptyString ->
       exists p, n_parent nd = Some p /\ id p = 1%Z /\ issueKey p = k /\
                 description p = EmptyString /\ issueType p = "Task" /\
                 priority p = "Normal" /\ status p = "Open" /\ createdUser p = "owner") /\
    (idm 1%Z = None -> n_parent nd = None).
Proof.
  intros iss idm.
  assert (H1 : In (sample_issue 5 "A-5" "Task" (Some 1%Z)) iss) by (simpl; auto).
  assert (H2 : NoDup (map issueKey iss)).
  { simpl. constructor; [simpl; intros [H|[]]; discriminate|].
    constructor; [simpl; tauto|constructor]. }
  assert (H3 : parentIssueId (sample_issue 5 "A-5" "Task" (Some 1%Z)) = Some 1%Z) by reflexivity.
  assert (H4 : 1%Z <> 0%Z) by discriminate.
  assert (H5 : forall y, In y iss -> id y <> 1%Z).
  { simpl. intros y [<-|[<-|[]]]; simpl; discriminate. }
  split; [auto|].
  exact (stub_parent_for_absent_parent iss idm _ 1%Z H1 H2 H3 H4 H5).
Defined.

(** ** Parent folders *)

(** C9 (amended).  Let [X] be one of the issues, with distinct keys, whose
    tree node has a parent [P] (found or stub), and whose own task file, if
    the scan saw one, is in [others] or in a folder named like a bare issue
    key.  Then the folder map sends [X] to the folder where the scan last
    saw [P]'s task file, and to the folder [P]'s key otherwise (created when
    the file is written).  The scan is that of [getExistingTaskFiles]: it
    skips the folders that cannot be listed.  No [{parentKey}-*] folder is
    looked for; the folder of [P]'s file may be [others]. *)
Theorem parent_folder_placement issues idm s x p :
  In x issues -> NoDup (map issueKey issues) ->
  n_parent (tree_node issues (issue_map issues) idm x) = Some p ->
  (forall cur,
     jsmap_get String.eqb (issueKey x)
       (existing_locations (collectTaskFilesRecursively (is_unreadable s) [] (st_root s))) = Some cur ->
     basename s cur = "others" \/ bare_key (basename s cur) = true) ->
  exists fm,
    fst (matchCustomFoldersWithIssues (buildIssueTreeMap issues idm) s) = Ok fm /\
    jsmap_get String.eqb (issueKey x) fm =
      Some (match jsmap_get String.eqb (issueKey p)
                    (existing_locations (collectTaskFilesRecursively (is_unreadable s) [] (st_root s))) with
            | Some l => l
            | None => [issueKey p]
            end).
Proof.
  intros Hx Hn Hp Hcur. rewrite matchCustom_eq. eexists. split; [reflexivity|].
  rewrite (folder_map_get _ _ _ _ (tree_node issues (issue_map issues) idm x)
             (issue_tree_nodup issues idm)).
  2:{ apply (jsmap_get_in String.eqb); [exact String.eqb_eq|]. now apply issue_tree_get. }
  f_equal. unfold target_folder. cbn [n_issue n_parent n_children tree_node] in *.
  set (locs := existing_locations (collectTaskFilesRecursively (is_unreadable s) [] (st_root s))) in *.
  destruct (jsmap_get String.eqb (issueKey x) locs) as [cur|] eqn:El.
  - assert (Hc : String.eqb (basename s cur) "others" = true \/ bare_key (basename s cur) = true).
    { destruct (Hcur cur eq_refl) as [H|H]; [left; now apply String.eqb_eq|now right]. }
    assert (Hk : negb (String.eqb (basename s cur) "others") && negb (bare_key (basename s cur))
                 = false) by (destruct Hc as [-> | ->]; [reflexivity|apply andb_false_r]).
    assert (Hcu : isCustomParentFolder (basename s cur) = false).
    { destruct (Hcur cur eq_refl) as [H|H]; [rewrite H; reflexivity|now apply bare_not_custom]. }
    rewrite Hk, Hcu. unfold tree_node in Hp. simpl in Hp. rewrite Hp.
    unfold determineTargetFolderByRelationship. reflexivity.
  - unfold tree_node in Hp. simpl in Hp. rewrite Hp.
    unfold determineTargetFolderByRelationship.
    destruct (jsmap_get String.eqb (issueKey p) locs); reflexivity.
Qed.

Lemma parent_folder_placement_witness :
  let iss := [sample_issue 1 "A-1" "Task" None; sample_issue 2 "A-2" "Task" (Some 1%Z)] in
  let s := sample_state [Dir "others" []; Dir "sprint-3" [File "A-1.md" "# Issue A-1"]] in
  (In (sample_issue 2 "A-2" "Task" (Some 1%Z)) iss /\ NoDup (map issueKey iss) /\
   n_parent (tree_node iss (issue_map iss) no_keys (sample_issue 2 "A-2" "Task" (Some 1%Z)))
     = Some (sample_issue 1 "A-1" "Task" None) /\
   (forall cur,
      jsmap_get String.eqb "A-2"
        (existing_locations (collectTaskFilesRecursively (is_unreadable s) [] (st_root s))) = Some cur ->
      basename s cur = "others" \/ bare_key (basename s cur) = true)) /\
  exists fm,
    fst (matchCustomFoldersWithIssues (buildIssueTreeMap iss no_keys) s) = Ok fm /\
    jsmap_get String.eqb "A-2" fm =
      Some (match jsmap_get String.eqb "A-1"
                    (existing_locations (collectTaskFilesRecursively (is_unreadable s) [] (st_root s))) with
            | Some l => l
            | None => ["A-1"]
            end).
Proof.
  intros iss s.
  assert (H1 : In (sample_issue 2 "A-2" "Task" (Some 1%Z)) iss) by (simpl; auto).
  assert (H2 : NoDup (map issueKey iss)).
  { simpl. constructor; [simpl; intros [H|[]]; discriminate|].
    constructor; [simpl; tauto|constructor]. }
  assert (H3 : n_parent (tree_node iss (issue_map iss) no_keys
                           (sample_issue 2 "A-2" "Task" (Some 1%Z)))
               = Some (sample_issue 1 "A-1" "Task" None)) by reflexivity.
  assert (H4 : forall cur,
      jsmap_get String.eqb "A-2"
        (existing_locations (collectTaskFilesRecursively (is_unreadable s) [] (st_root s))) = Some cur ->
      basename s cur = "others" \/ bare_key (basename s cur) = true).
  { intros cur H. vm_compute in H. discriminate H. }
  split; [auto|].
  exact (parent_folder_placement iss no_keys s _ _ H1 H2 H3 H4).
Defined.

(** C9, counterexample.  With no task file for the parent [A-1] and a
    renamed parent folder [A-1-login] present, the child [A-2] is sent to a
    new folder [A-1], neither to [A-1-login] nor to [others]. *)
Lemma renamed_parent_folder_not_adopted :
  let iss := [sample_issue 1 "A-1" "Task" None; sample_issue 2 "A-2" "Task" (Some 1%Z)] in
  let s := sample_state [Dir "others" []; Dir "A-1-login" []] in
  fst (matchCustomFoldersWithIssues (buildIssueTreeMap iss no_keys) s) =
    Ok [("A-1", ["A-1"]); ("A-2", ["A-1"])].
Proof. vm_compute. reflexivity. Qed.

(** ** Ignored issue types *)

Lemma filterIgnored_spec issues ign i :
  In i (filterIgnoredIssueTypes issues ign) <->
  In i issues /\ ~ (exists t, In t ign /\ toLowerCase t = toLowerCase (issueType i)).
Proof.
  unfold filterIgnoredIssueTypes. destruct ign as [|t0 ts].
  - split; [intros H; split; [exact H|intros (t & [] & _)]|tauto].
  - rewrite filter_In, negb_true_iff. apply and_iff_compat_l. split.
    + intros E (t & Ht & Et). apply not_true_iff_false in E. apply E.
      apply existsb_exists. exists (toLowerCase t). split; [now apply in_map|].
      apply String.eqb_eq. congruence.
    + intros N. apply not_true_iff_false. intros E. apply N.
      apply existsb_exists in E as (l & Hl & El). apply in_map_iff in Hl as (t & <- & Ht).
      apply String.eqb_eq in El. eauto.
Qed.

(** C4 (amended).  An issue is synced exactly when no entry of the ignore
    list equals its type name after [toLowerCase] on both sides: the match
    is case-insensitive.  With distinct issue keys, the files named after an
    excluded issue are left as they are by [syncIssues]. *)
Theorem ignored_types_excluded issues ign idm s e :
  NoDup (map issueKey issues) ->
  (forall i, In i (filterIgnoredIssueTypes issues ign) <->
             In i issues /\ ~ (exists t, In t ign /\ toLowerCase t = toLowerCase (issueType i))) /\
  (In e issues -> (exists t, In t ign /\ toLowerCase t = toLowerCase (issueType e)) ->
   forall r s', syncIssues issues ign idm s = (r, s') ->
                frame (named (md (issueKey e))) (files s) (files s')).
Proof.
  intros Hn. split; [intros i; apply filterIgnored_spec|].
  intros He Hx r s' E.
  assert (Hf : forall j, In j (filterIgnoredIssueTypes issues ign) ->
                         off_name (named (md (issueKey e))) (md (issueKey j))).
  { intros j Hj x Nx. unfold named. rewrite Nx. apply String.eqb_neq. intros Em.
    apply md_inj in Em. apply filterIgnored_spec in Hj as [Hj Nj].
    rewrite (nodup_map_inj issueKey issues j e Hn Hj He Em) in Nj. contradiction. }
  exact (proj2 (syncIssues_frame _ issues ign idm Hf s r s' E)).
Qed.

Lemma ignored_types_excluded_witness :
  let iss := [sample_issue 1 "A-1" "Task" None; sample_issue 2 "A-2" "Bug" None] in
  let s := sample_state [Dir "others" [File "A-2.md" "# Issue A-2"]] in
  NoDup (map issueKey iss) /\
  ((forall i, In i (filterIgnoredIssueTypes iss ["bug"]) <->
              In i iss /\ ~ (exists t, In t ["bug"] /\ toLowerCase t = toLowerCase (issueType i))) /\
   (In (sample_issue 2 "A-2" "Bug" None) iss ->
    (exists t, In t ["bug"] /\ toLowerCase t = toLowerCase "Bug") ->
    forall r s', syncIssues iss ["bug"] no_keys s = (r, s') ->
                 frame (named (md "A-2")) (files s) (files s'))).
Proof.
  intros iss s.
  assert (H : NoDup (map issueKey iss)).
  { simpl. constructor; [simpl; intros [H|[]]; discriminate|].
    constructor; [simpl; tauto|constructor]. }
  split; [exact H|].
  exact (ignored_types_excluded iss ["bug"] no_keys s (sample_issue 2 "A-2" "Bug" None) H).
Defined.

(** C4, counterexample.  The ignore list [["bug"]] excludes an issue of
    type [Bug]. *)
Lemma ignored_types_match_ignores_case :
  filterIgnoredIssueTypes [sample_issue 2 "A-2" "Bug" None] ["bug"] = [] /\
  ~ In "Bug" ["bug"].
Proof. split; [vm_compute; reflexivity|simpl; intros [H|[]]; discriminate]. Qed.

(** ** Cleanup *)

#[export] Instance dirs_same_preorder : PreOrder dirs_same.
Proof. split; [intros s; reflexivity|intros s1 s2 s3 H1 H2; unfold dirs_same in *; congruence]. Qed.

Lemma inv_for_each {A} R `{PreOrder _ R} (l : list A) (f : A -> M unit) :
  (forall x, In x l -> inv_prog R (f x)) -> inv_prog R (for_each l f).
Proof.
  induction l as [|x l IH]; intros Hf; simpl.
  - apply readonly_inv; [typeclasses eauto|apply readonly_ret].
  - apply inv_bind; [typeclasses eauto| |intros _].
    + apply Hf. now left.
    + apply IH. intros y Hy. apply Hf. now right.
Qed.

Lemma dirs_same_log m : inv_prog dirs_same (log m).
Proof. intros s r s' E. apply log_spec in E as [_ ->]. reflexivity. Qed.

Lemma dirs_same_rmFile d n : inv_prog dirs_same (rmFile d n).
Proof.
  intros s r s' E. apply rmFile_spec in E as [[-> _]|(_ & _ & Hd & _)]; [reflexivity|exact Hd].
Qed.

Lemma removeTaskFile_dirs k : inv_prog dirs_same (removeTaskFile k).
Proof.
  unfold removeTaskFile.
  apply inv_catch; [typeclasses eauto| |intros e; apply dirs_same_log].
  apply inv_bind; [typeclasses eauto|apply readonly_inv; [typeclasses eauto|auto with readonly]|].
  intros [d|]; [apply dirs_same_rmFile|apply readonly_inv; [typeclasses eauto|apply readonly_ret]].
Qed.

Lemma removeTaskFile_frame P k :
  off_name P (md k) -> inv_prog (files_rel (frame P)) (removeTaskFile k).
Proof. intros HP. unfold removeTaskFile. inv_tac. apply inv_rmFile_frame, HP. Qed.

(** The keys [cleanupRemovedIssues] removes come from task-file names. *)
Lemma removed_keys_task_named s keys k :
  In k (filter (fun k => negb (existsb (String.eqb k) keys))
          (map (fun '(_, n) => strip_md n)
               (collectTaskFilesRecursively (is_unreadable s) [] (st_root s)))) ->
  task_file_name (md k) = true.
Proof.
  intros Hk. apply filter_In in Hk as [Hk _]. rewrite collect_spec, map_map in Hk.
  apply in_map_iff in Hk as (x & <- & Hx). apply filter_In in Hx as [_ Tx].
  unfold is_task_file in Tx. apply andb_prop in Tx as [_ Tx].
  now rewrite (task_file_name_md _ Tx).
Qed.

(** [cleanupRemovedIssues] preserves any relation that the removal of a
    task file and a log line preserve. *)
Lemma cleanup_inv R `{PreOrder _ R} keys :
  (forall k, task_file_name (md k) = true -> inv_prog R (removeTaskFile k)) ->
  (forall m, inv_prog R (log m)) ->
  inv_prog R (cleanupRemovedIssues keys).
Proof.
  intros Hrm Hlog s r s' E. unfold cleanupRemovedIssues in E.
  apply catch_cases in E as (r1 & s1 & E1 & E).
  apply bind_cases in E1 as (r2 & s2 & E2 & E1).
  unfold getExistingTaskFiles, bind, get, ret in E2. injection E2 as <- <-.
  assert (R1 : R s s1).
  { apply (inv_for_each R _ removeTaskFile) in E1; [exact E1|].
    intros k Hk. apply Hrm. exact (removed_keys_task_named _ _ _ Hk). }
  destruct r1 as [a|e].
  - destruct E as [_ ->]. exact R1.
  - transitivity s1; [exact R1|exact (Hlog _ _ _ _ E)].
Qed.

(** C10.  [cleanupRemovedIssues] leaves every file whose name is not of the
    form [PROJ-123.md] as it is (among them [.last-sync] and any user
    file), and it leaves the folders as they are. *)
Theorem cleanup_keeps_other_files keys s :
  filter not_task_named (files (snd (cleanupRemovedIssues keys s))) =
    filter not_task_named (files s) /\
  dirs (snd (cleanupRemovedIssues keys s)) = dirs s.
Proof.
  destruct (cleanupRemovedIssues keys s) as [r s'] eqn:E. simpl. split.
  - refine (proj2 (cleanup_inv (files_rel (frame not_task_named)) keys _ _ s r s' E)).
    + intros k Hk. apply removeTaskFile_frame. intros x Nx. unfold not_task_named.
      now rewrite Nx, Hk.
    + intros m. apply inv_log. typeclasses eauto.
  - refine (cleanup_inv dirs_same keys _ _ s r s' E).
    + intros k _. apply removeTaskFile_dirs.
    + apply dirs_same_log.
Qed.

(** ** Failures in a sync batch *)

(** C6.  Two issues: [A-1] has no task file and goes to [others], which
    cannot be written; [A-2] has a file in [sprint-3] with stale content.
    The write of [A-1] fails, the failure leaves [syncIssues], and [A-2] is
    never updated: nothing is written and nothing is logged. *)
Lemma recovery_failure_aborts_batch :
  let iss := [sample_issue 1 "A-1" "Task" None; sample_issue 2 "A-2" "Task" None] in
  let s := mkState "tasks" [Dir "others" []; Dir "sprint-3" [File "A-2.md" "old"]]
                   [["others"]] [] [] in
  syncIssues iss [] no_keys s = (Err "EACCES", s) /\
  files s = [(["sprint-3"], "A-2.md", "old")].
Proof. split; vm_compute; reflexivity. Qed.

(** ** The [update-issues] tool *)

(** C2.  The local file of [A-1] has the remote title and an empty
    description; the remote description is not empty.  The comparison
    records "Description update skipped (would remove existing content)",
    but since no field changed the key is reported as "No changes
    detected", and the skip message is dropped.  No update is sent. *)
Lemma empty_description_skip_not_reported :
  let remote := mkIssue 1 1 "A-1" 1 "Task" "Fix login" "Steps to reproduce" "Normal" "Open"
                        [] [] [] "owner" "2024-05-01" None in
  let s := sample_state [Dir "others" [File "A-1.md" ("# Fix login" ++ String LF (String LF ""))]] in
  readTaskFile "A-1" s = (Ok (Some ("Fix login", "")), s) /\
  compute_changes "Fix login" "" remote =
    (mkChanges None None, ["Description update skipped (would remove existing content)"]) /\
  update_issues (fun _ => Ok remote) (fun _ _ => Ok tt) ["A-1"] s =
    (Ok ([KNoChanges "A-1"], (0, 0, 1), []), s).
Proof. split; [|split]; vm_compute; reflexivity. Qed.

(** ** Running the sync twice *)

#[export] Instance grows_preorder : PreOrder grows.
Proof. split; [intros l n H; exact H|intros l1 l2 l3 H1 H2 n H; auto]. Qed.

#[export] Instance recovery_free_preorder : PreOrder recovery_free.
Proof. split; [intros s H; exact H|intros s1 s2 s3 H1 H2 H; auto]. Qed.

Lemma has_name_mid n l1 l2 d c :
  has_name n (l1 ++ (d, n, c) :: l2).
Proof. exists (d, n, c). split; [apply in_or_app; right; now left|reflexivity]. Qed.

Lemma writeFile_has d n c s s' :
  writeFile d n c s = (Ok tt, s') -> has_name n (files s').
Proof.
  intros E. apply writeFile_spec in E as [[_ [e He]]|(_ & _ & Hs)]; [discriminate|].
  destruct Hs as [(l1 & l2 & c0 & _ & ->)|(l1 & l2 & _ & ->)]; apply has_name_mid.
Qed.

Lemma inv_writeFile_grows d n c : inv_prog (files_rel grows) (writeFile d n c).
Proof.
  intros s r s' E. apply writeFile_spec in E as [[-> _]|(_ & Hc & Hs)].
  - split; [repeat split|reflexivity].
  - split; [exact Hc|]. intros m [x [Hx Nx]].
    destruct Hs as [(l1 & l2 & c0 & E1 & ->)|(l1 & l2 & E1 & ->)]; rewrite E1 in Hx.
    + apply in_mid_iff in Hx as [->|Hx].
      * unfold fname in Nx. simpl in Nx. subst m. apply has_name_mid.
      * exists x. split; [apply in_mid_iff; now right|exact Nx].
    + exists x. split; [apply in_mid_iff; now right|exact Nx].
Qed.

(** Moving a file to another folder keeps every name: the copy is written
    before the original is removed. *)
Lemma moveTaskFile_grows k from to :
  from <> to -> inv_prog (files_rel grows) (moveTaskFile k from to).
Proof.
  intros Hne s r s' E. unfold moveTaskFile in E.
  apply catch_cases in E as (r1 & s1 & E1 & E).
  assert (G1 : files_rel grows s s1).
  { apply bind_cases in E1 as (r2 & s2 & E2 & E1).
    rewrite (readFile_readonly _ _ _ _ _ E2) in *.
    destruct r2 as [content|e]; [|destruct E1 as [_ ->]; reflexivity].
    apply bind_cases in E1 as (r3 & s3 & E3 & E1).
    pose proof (inv_ensureDir grows to s r3 s3 E3) as G3.
    destruct r3 as [[]|e]; [|destruct E1 as [_ ->]; exact G3].
    apply bind_cases in E1 as (r4 & s4 & E4 & E1).
    pose proof (inv_writeFile_grows _ _ _ s3 r4 s4 E4) as G4.
    destruct r4 as [[]|e]; [|destruct E1 as [_ ->]; etransitivity; eauto].
    assert (Hin : exists c, In (to, md k, c) (files s4)).
    { apply writeFile_spec in E4 as [[_ [e He]]|(_ & _ & Hs)]; [discriminate|].
      exists content.
      destruct Hs as [(l1 & l2 & c0 & _ & ->)|(l1 & l2 & _ & ->)];
        apply in_mid_iff; now left. }
    apply bind_cases in E1 as (r5 & s5 & E5 & E1).
    assert (G5 : files_rel grows s4 s5).
    { apply rmFile_spec in E5 as [[-> _]|(_ & Hc & _ & l1 & l2 & c0 & F1 & F2)];
        [reflexivity|split; [exact Hc|]].
      destruct Hin as [c Hin]. intros m [x [Hx Nx]]. rewrite F1 in Hx. rewrite F2.
      apply in_mid_iff in Hx as [->|Hx].
      - exists (to, md k, c). split; [|unfold fname in *; simpl in *; congruence].
        rewrite F1 in Hin. apply in_mid_iff in Hin as [Hin|Hin]; [|exact Hin].
        apply (f_equal (fun y => fst (fst y))) in Hin. simpl in Hin. congruence.
      - exists x. split; assumption. }
    assert (G45 : files_rel grows s s5) by (do 3 (etransitivity; eauto)).
    destruct r5 as [[]|e]; [|destruct E1 as [_ ->]; exact G45].
    etransitivity; [exact G45|]. exact (inv_log grows _ _ _ _ E1). }
  destruct r1 as [a|e]; [destruct E as [_ ->]; exact G1|].
  etransitivity; [exact G1|]. exact (inv_log grows _ _ _ _ E).
Qed.

Lemma syncIssue_grows i all : inv_prog (files_rel grows) (syncIssue i all).
Proof. unfold syncIssue. inv_tac. apply inv_writeFile_grows. Qed.

Lemma sync_step_grows fm all j : inv_prog (files_rel grows) (sync_step fm all j).
Proof.
  unfold sync_step.
  apply inv_bind; [typeclasses eauto|apply inv_readonly; [typeclasses eauto|auto with readonly]|].
  intros [d|].
  - apply inv_bind; [typeclasses eauto| |intros _; inv_tac].
    match goal with |- inv_prog _ (if dirpath_eqb d ?t then _ else _) =>
      destruct (dirpath_eqb d t) eqn:E end.
    + apply syncIssue_grows.
    + apply moveTaskFile_grows. intros ->. now rewrite dirpath_eqb_refl in E.
  - inv_tac. apply inv_writeFile_grows.
Qed.

Lemma sync_loop_grows fm all l n : inv_prog (files_rel grows) (sync_loop fm all l n).
Proof.
  revert n. induction l as [|j l IH]; intros n; simpl; [inv_tac|].
  apply inv_bind; [typeclasses eauto|apply sync_step_grows|intros m; apply IH].
Qed.

(** A step that succeeds leaves a task file for its issue. *)
Lemma sync_step_has fm all j s n s' :
  sync_step fm all j s = (Ok n, s') -> has_name (md (issueKey j)) (files s').
Proof.
  intros E. pose proof (sync_step_grows fm all j s _ s' E) as [_ G].
  unfold sync_step in E. apply bind_cases in E as (r1 & s1 & E1 & E).
  rewrite findExisting_eq in E1. injection E1 as <- <-.
  destruct (searchTaskFileRecursively (is_unreadable s) (issueKey j) [] (st_root s)) as [d|] eqn:Es.
  - apply G. rewrite search_spec in Es.
    destruct (find (named (md (issueKey j))) (vfiles_in (is_unreadable s) [] (st_root s)))
      as [x|] eqn:F; [|discriminate].
    apply find_some in F as [Hx Nx]. exists x. split; [exact (vfiles_sub _ _ _ _ Hx)|].
    unfold named in Nx. now apply String.eqb_eq in Nx.
  - apply bind_cases in E as (r2 & s2 & E2 & E).
    destruct r2 as [[]|e]; [|destruct E as [E _]; discriminate].
    apply bind_cases in E as (r3 & s3 & E3 & E).
    rewrite (issueToTaskFile_readonly _ _ _ _ _ E3) in *.
    destruct r3 as [task|e]; [|destruct E as [E _]; discriminate].
    apply bind_cases in E as (r4 & s4 & E4 & E).
    destruct r4 as [[]|e]; [|destruct E as [E _]; discriminate].
    apply writeFile_has in E4.
    apply bind_cases in E as (r5 & s5 & E5 & E). apply log_spec in E5 as [-> ->].
    unfold ret in E. injection E as _ <-. exact E4.
Qed.

Lemma sync_loop_has fm all l n s m s' :
  sync_loop fm all l n s = (Ok m, s') ->
  forall j, In j l -> has_name (md (issueKey j)) (files s').
Proof.
  revert n s. induction l as [|j0 l IH]; intros n s E j Hj; [destruct Hj|]. simpl in E.
  apply bind_cases in E as (r1 & s1 & E1 & E).
  destruct r1 as [a|e]; [|destruct E as [E _]; discriminate].
  destruct Hj as [<-|Hj]; [|exact (IH _ _ E j Hj)].
  apply (sync_loop_grows fm all l (n + a) s1 _ s' E). exact (sync_step_has _ _ _ _ _ _ E1).
Qed.

Lemma syncIssues_has issues ign idm s s' :
  syncIssues issues ign idm s = (Ok tt, s') ->
  forall j, In j (filterIgnoredIssueTypes issues ign) -> has_name (md (issueKey j)) (files s').
Proof.
  intros E j Hj. apply syncIssues_cases in E as (s1 & r2 & s2 & _ & _ & E2 & _ & Hf & _ & He).
  destruct r2 as [n|e]; [|discriminate (He e eq_refl)].
  rewrite Hf. exact (sync_loop_has _ _ _ _ _ _ _ E2 j Hj).
Qed.

(** ** Recovery logs *)

Lemma rf_emit s e : (forall k d, e <> EvLog (LRecovered k d)) -> recovery_free s (emit s e).
Proof.
  intros He Hs k d [H|H]; [exact (He k d H)|exact (Hs k d H)].
Qed.

Lemma rf_lift_fs r : inv_prog recovery_free (lift_fs r).
Proof.
  intros s r' s' E. unfold lift_fs in E.
  destruct r as [es|e]; injection E as _ <-; intros Hs; exact Hs.
Qed.

Lemma rf_log m : (forall k d, m <> LRecovered k d) -> inv_prog recovery_free (log m).
Proof.
  intros Hm s r s' E. apply log_spec in E as [_ ->]. apply rf_emit.
  intros k d H. injection H as H. exact (Hm k d H).
Qed.

Lemma rf_ensureDir d : inv_prog recovery_free (ensureDir d).
Proof.
  unfold ensureDir. apply inv_bind; [typeclasses eauto| |intros; apply rf_lift_fs].
  apply readonly_inv; [typeclasses eauto|auto with readonly].
Qed.

Lemma rf_writeFile d n c : inv_prog recovery_free (writeFile d n c).
Proof.
  unfold writeFile. apply inv_bind; [typeclasses eauto| |intros].
  { apply readonly_inv; [typeclasses eauto|auto with readonly]. }
  apply inv_bind; [typeclasses eauto|apply rf_lift_fs|intros].
  intros s r s' E. injection E as _ <-. apply rf_emit. discriminate.
Qed.

Lemma rf_rmFile d n : inv_prog recovery_free (rmFile d n).
Proof.
  unfold rmFile. apply inv_bind; [typeclasses eauto| |intros].
  { apply readonly_inv; [typeclasses eauto|auto with readonly]. }
  apply inv_bind; [typeclasses eauto|apply rf_lift_fs|intros].
  intros s r s' E. injection E as _ <-. apply rf_emit. discriminate.
Qed.

Ltac rf_tac :=
  repeat match goal with
  | |- inv_prog _ (bind _ _) => apply inv_bind; [typeclasses eauto| |intro]
  | |- inv_prog _ (catch _ _) => apply inv_catch; [typeclasses eauto| |intro]
  | |- inv_prog _ (if ?b then _ else _) => destruct b
  | |- inv_prog recovery_free (log _) => apply rf_log; intros ? ?; discriminate
  | |- inv_prog recovery_free (ensureDir _) => apply rf_ensureDir
  | |- inv_prog recovery_free (writeFile _ _ _) => apply rf_writeFile
  | |- inv_prog recovery_free (rmFile _ _) => apply rf_rmFile
  | |- inv_prog recovery_free _ =>
      apply readonly_inv; [typeclasses eauto|solve [auto with readonly]]
  end.

(** A step for an issue whose task file exists logs no recovery. *)
Lemma sync_step_rf fm all j s r s' :
  st_unreadable s = [] ->
  has_name (md (issueKey j)) (files s) -> sync_step fm all j s = (r, s') ->
  recovery_free s s'.
Proof.
  intros Hu [x [Hx Nx]] E. unfold sync_step in E.
  apply bind_cases in E as (r1 & s1 & E1 & E).
  rewrite findExisting_eq in E1. injection E1 as <- <-.
  rewrite search_spec in E. fold (visible_files s) in E. rewrite visible_files_all in E by exact Hu.
  destruct (find (named (md (issueKey j))) (files s)) as [y|] eqn:F.
  - simpl in E. revert E. unfold syncIssue, moveTaskFile.
    match goal with |- ?m s = _ -> _ => enough (inv_prog recovery_free m) as I
      by (intros E; exact (I _ _ _ E)) end.
    rf_tac.
  - exfalso. apply (find_none _ _ F) in Hx. unfold named in Hx.
    rewrite Nx, String.eqb_refl in Hx. discriminate.
Qed.

Lemma sync_loop_rf fm all l n s r s' :
  st_unreadable s = [] ->
  (forall j, In j l -> has_name (md (issueKey j)) (files s)) ->
  sync_loop fm all l n s = (r, s') -> recovery_free s s'.
Proof.
  revert n s. induction l as [|j0 l IH]; intros n s Hu Hl E; simpl in E.
  - injection E as _ <-. reflexivity.
  - apply bind_cases in E as (r1 & s1 & E1 & E).
    pose proof (sync_step_rf _ _ _ _ _ _ Hu (Hl j0 (or_introl eq_refl)) E1) as R1.
    destruct r1 as [a|e]; [|destruct E as [_ ->]; exact R1].
    transitivity s1; [exact R1|].
    destruct (sync_step_grows fm all j0 s _ s1 E1) as [(_ & _ & Hu1) G1].
    apply (IH (n + a)); [congruence| |exact E].
    intros j Hj. apply G1. exact (Hl j (or_intror Hj)).
Qed.

Lemma syncIssues_rf issues ign idm s r s' :
  st_unreadable s = [] ->
  (forall j, In j (filterIgnoredIssueTypes issues ign) -> has_name (md (issueKey j)) (files s)) ->
  syncIssues issues ign idm s = (r, s') -> recovery_free s s'.
Proof.
  intros Hu Hl E. unfold syncIssues in E.
  apply bind_cases in E as (r1 & s1 & E1 & E).
  assert (R1 : recovery_free s s1).
  { revert E1. match goal with |- ?m s = _ -> _ => enough (inv_prog recovery_free m) as I
      by (intros E1; exact (I _ _ _ E1)) end. rf_tac. }
  apply log_or_ret_spec in E1 as (-> & (_ & _ & Hu1) & _ & Hr1).
  apply bind_cases in E as (r3 & s3 & E3 & E). rewrite matchCustom_eq in E3.
  injection E3 as <- <-.
  apply bind_cases in E as (r2 & s2 & E2 & E).
  assert (R2 : recovery_free s1 s2).
  { refine (sync_loop_rf _ _ _ _ _ _ _ _ _ E2); [congruence|].
    intros j Hj. unfold files. rewrite Hr1. exact (Hl j Hj). }
  transitivity s2; [transitivity s1; assumption|].
  destruct r2 as [m|e]; [|destruct E as [_ ->]; reflexivity].
  revert E. match goal with |- ?m s2 = _ -> _ => enough (inv_prog recovery_free m) as I
      by (intros E; exact (I _ _ _ E)) end. rf_tac.
Qed.

(** ** A second sync *)

Lemma syncIssues_grows issues ign idm : inv_prog (files_rel grows) (syncIssues issues ign idm).
Proof. unfold syncIssues. inv_tac. apply sync_loop_grows. Qed.

(** C5 (amended).  On a task directory whose folders and files can all be
    read, after a successful [syncIssues], a second [syncIssues] over the
    same issues (whatever id-to-key map it reads) recovers no file:
    its trace holds no [Recovered] log line, since every synced issue
    already has a task file; and when it succeeds, every issue of the
    synced set still has a task file.  The second run still rewrites each
    file through [syncIssue] or moves it, so it is not free of writes. *)
Lemma second_sync_recovers_nothing issues ign idm idm' s s1 r2 s2 :
  st_unreadable s = [] ->
  syncIssues issues ign idm s = (Ok tt, s1) ->
  syncIssues issues ign idm' (clear_trace s1) = (r2, s2) ->
  no_recovery (st_trace s2) /\
  (r2 = Ok tt -> forall j, In j (filterIgnoredIssueTypes issues ign) ->
                 has_name (md (issueKey j)) (files s2)).
Proof.
  intros Hu E1 E2. split.
  - destruct (syncIssues_grows _ _ _ _ _ _ E1) as [(_ & _ & Hu1) _].
    refine (syncIssues_rf _ _ _ _ _ _ _ _ E2 _); [simpl; congruence| |].
    + intros j Hj. rewrite files_clear_trace. exact (syncIssues_has _ _ _ _ _ E1 j Hj).
    + intros k d [].
  - intros ->. exact (syncIssues_has _ _ _ _ _ E2).
Qed.

Lemma second_sync_recovers_nothing_witness :
  let I := [sample_issue 1 "A-1" "Task" None] in
  let s1 := snd (syncIssues I [] no_keys (sample_state [])) in
  let run2 := syncIssues I [] no_keys (clear_trace s1) in
  no_recovery (st_trace (snd run2)) /\
  (fst run2 = Ok tt -> forall j, In j (filterIgnoredIssueTypes I []) ->
                       has_name (md (issueKey j)) (files (snd run2))).
Proof.
  intros I s1 run2.
  apply (second_sync_recovers_nothing I [] no_keys no_keys (sample_state []) s1).
  - reflexivity.
  - vm_compute. reflexivity.
  - apply surjective_pairing.
Defined.

(** C5: the second of two runs with nothing changed in between still
    writes [A-1.md] again, with the same content, rather than doing
    nothing. *)
Lemma second_sync_still_writes :
  let I := [sample_issue 1 "A-1" "Task" None] in
  let s1 := snd (syncIssues I [] no_keys (sample_state [])) in
  let s2 := snd (syncIssues I [] no_keys (clear_trace s1)) in
  fst (syncIssues I [] no_keys (clear_trace s1)) = Ok tt /\
  files s2 = files s1 /\ st_trace s2 = [EvWrite ["others"] "A-1.md"].
Proof. vm_compute. repeat split; reflexivity. Qed.

(** ** Well-formed trees *)

Lemma names_distinct_NoDup l : names_distinct l = true <-> NoDup l.
Proof.
  induction l as [|x l IH]; simpl.
  - split; [constructor|reflexivity].
  - rewrite andb_true_iff, negb_true_iff, IH, NoDup_cons_iff. apply and_iff_compat_r.
    split.
    + intros E Hx. apply not_true_iff_false in E. apply E, existsb_exists.
      exists x. split; [exact Hx|apply String.eqb_refl].
    + intros N. apply not_true_iff_false. intros E. apply existsb_exists in E as (y & Hy & Ey).
      apply String.eqb_eq in Ey. subst y. exact (N Hy).
Qed.

Lemma wf_entry_Dir n es : wf_entry (Dir n es) = wf_tree es.
Proof.
  unfold wf_tree. simpl. f_equal.
Qed.

Lemma wf_tree_iff es :
  wf_tree es = true <-> NoDup (map entry_name es) /\ forall e, In e es -> wf_entry e = true.
Proof.
  unfold wf_tree. rewrite andb_true_iff, names_distinct_NoDup, forallb_forall. reflexivity.
Qed.

Lemma wf_tree_nil : wf_tree [] = true.
Proof. reflexivity. Qed.

Lemma wf_tree_replace e1 e e' e2 :
  wf_tree (e1 ++ e :: e2) = true -> entry_name e' = entry_name e -> wf_entry e' = true ->
  wf_tree (e1 ++ e' :: e2) = true.
Proof.
  rewrite !wf_tree_iff. intros [N F] En W. split.
  - rewrite map_app. simpl. rewrite En. rewrite map_app in N. exact N.
  - intros x Hx. apply in_mid_iff in Hx as [->|Hx]; [exact W|].
    apply F, in_mid_iff. now right.
Qed.

Lemma wf_tree_sub e1 n sub e2 : wf_tree (e1 ++ Dir n sub :: e2) = true -> wf_tree sub = true.
Proof.
  rewrite wf_tree_iff. intros [_ F]. rewrite <- (wf_entry_Dir n). apply F, in_mid_iff. now left.
Qed.

Lemma wf_tree_append es e :
  wf_tree es = true -> ~ In (entry_name e) (map entry_name es) -> wf_entry e = true ->
  wf_tree (es ++ [e]) = true.
Proof.
  rewrite !wf_tree_iff. intros [N F] Hn W. split.
  - rewrite map_app. simpl. apply (Permutation_NoDup (Permutation_cons_append _ _)).
    now constructor.
  - intros x Hx. apply in_app_or in Hx as [Hx|[<-|[]]]; [exact (F x Hx)|exact W].
Qed.

Lemma wf_tree_remove e1 e e2 : wf_tree (e1 ++ e :: e2) = true -> wf_tree (e1 ++ e2) = true.
Proof.
  rewrite !wf_tree_iff. intros [N F]. split.
  - rewrite map_app in *. exact (NoDup_remove_1 _ _ _ N).
  - intros x Hx. apply F, in_mid_iff. now right.
Qed.

Lemma lookup_none_fresh n es :
  lookup_file n es = None -> lookup_dir n es = None -> ~ In n (map entry_name es).
Proof.
  induction es as [|e es IH]; simpl; [intros _ _ []|].
  destruct e as [m c|m sub]; simpl; destruct (String.eqb m n) eqn:E;
    intros L1 L2; try discriminate; apply String.eqb_neq in E;
    intros [H|H]; [exact (E H)|exact (IH L1 L2 H)|exact (E H)|exact (IH L1 L2 H)].
Qed.

Lemma lookup_dir_in n es sub :
  NoDup (map entry_name es) -> In (Dir n sub) es -> lookup_dir n es = Some sub.
Proof.
  induction es as [|e es IH]; simpl; [intros _ []|].
  intros Hn Hin. inversion Hn as [|? ? Hx Hn']; subst.
  destruct Hin as [->|Hin].
  - now rewrite String.eqb_refl.
  - assert (entry_name e <> n) as Ne.
    { intros <-. apply Hx. apply in_map_iff. exists (Dir (entry_name e) sub). auto. }
    destruct e as [m c|m sub0]; simpl in Ne; [exact (IH Hn' Hin)|].
    apply String.eqb_neq in Ne. rewrite Ne. exact (IH Hn' Hin).
Qed.

Lemma lookup_file_in n c es : In (File n c) es -> exists c', lookup_file n es = Some c'.
Proof.
  induction es as [|e es IH]; simpl; [intros []|]. intros [->|Hin].
  - rewrite String.eqb_refl. eauto.
  - destruct e as [m c0|m sub]; [destruct (String.eqb m n); eauto|auto].
Qed.

Lemma upd_dir_ok p f es es0 es0' :
  get_dir p es = Some es0 -> f es0 = Ok es0' -> exists es', upd_dir p f es = Ok es'.
Proof.
  revert es. induction p as [|n p IH]; intros es G F; simpl in *.
  - injection G as ->. eauto.
  - destruct (lookup_dir n es) as [sub|]; [|discriminate].
    destruct (IH sub G F) as [sub' ->]. eauto.
Qed.

Lemma upd_dir_wf p f es es' :
  upd_dir p f es = Ok es' -> wf_tree es = true ->
  (forall es0 es0', f es0 = Ok es0' -> wf_tree es0 = true -> wf_tree es0' = true) ->
  wf_tree es' = true.
Proof.
  revert es es'. induction p as [|n p IH]; intros es es' U W Hf; simpl in U.
  - exact (Hf _ _ U W).
  - destruct (lookup_dir n es) as [sub|] eqn:L; [|discriminate].
    destruct (upd_dir p f sub) as [sub'|e] eqn:U'; [|discriminate].
    injection U as <-. destruct (lookup_dir_split _ _ _ L) as (e1 & e2 & -> & Hs).
    rewrite Hs. apply (wf_tree_replace _ _ _ _ W); [reflexivity|].
    rewrite wf_entry_Dir. exact (IH _ _ U' (wf_tree_sub _ _ _ _ W) Hf).
Qed.

Lemma put_file_wf n c es :
  lookup_dir n es = None -> wf_tree es = true -> wf_tree (put_file n c es) = true.
Proof.
  intros L W. destruct (put_file_shape n c es) as [(e1 & e2 & c0 & -> & ->)|[Lf ->]].
  - exact (wf_tree_replace _ _ (File n c) _ W eq_refl eq_refl).
  - apply wf_tree_append; [exact W| |reflexivity]. exact (lookup_none_fresh _ _ Lf L).
Qed.

Lemma del_file_wf n es : wf_tree es = true -> wf_tree (del_file n es) = true.
Proof.
  intros W. destruct (lookup_file n es) as [c0|] eqn:Lf.
  - destruct (del_file_shape _ _ _ Lf) as (e1 & e2 & -> & ->). exact (wf_tree_remove _ _ _ W).
  - replace (del_file n es) with es; [exact W|]. clear W.
    induction es as [|e es IH]; [reflexivity|].
    destruct e as [m c|m sub]; simpl in *; [destruct (String.eqb m n); [discriminate|]|];
      now rewrite <- IH.
Qed.

Lemma mkdir_in_wf den p : forall cur es es',
  mkdir_in den cur p es = Ok es' -> wf_tree es = true -> wf_tree es' = true.
Proof.
  induction p as [|n p IH]; intros cur es es' H W; simpl in H.
  - now injection H as <-.
  - destruct (lookup_dir n es) as [sub|] eqn:L.
    + destruct (mkdir_in den (cur ++ [n]) p sub) as [sub'|e] eqn:Mk; [|discriminate].
      injection H as <-. destruct (lookup_dir_split _ _ _ L) as (e1 & e2 & -> & Hs).
      rewrite Hs. apply (wf_tree_replace _ _ _ _ W); [reflexivity|].
      rewrite wf_entry_Dir. exact (IH _ _ _ Mk (wf_tree_sub _ _ _ _ W)).
    + destruct (lookup_file n es) eqn:Lf; [destruct p; discriminate|].
      destruct (den cur); [discriminate|].
      destruct (mkdir_in den (cur ++ [n]) p []) as [sub'|e] eqn:Mk; [|discriminate].
      injection H as <-. apply wf_tree_append; [exact W|exact (lookup_none_fresh _ _ Lf L)|].
      rewrite wf_entry_Dir. exact (IH _ _ _ Mk wf_tree_nil).
Qed.

#[export] Instance wf_rel_preorder : PreOrder wf_rel.
Proof.
  split.
  - intros s. split; [repeat split|auto].
  - intros s1 s2 s3 [[A1 [B1 D1]] C1] [[A2 [B2 D2]] C2]. split; [repeat split; congruence|auto].
Qed.

Lemma wf_writeFile d n c : inv_prog wf_rel (writeFile d n c).
Proof.
  intros s r s' E. unfold writeFile, bind, get, lift_fs in E.
  destruct (upd_dir d _ (st_root s)) as [es'|e] eqn:U; injection E as _ <-;
    [|split; [repeat split|auto]].
  split; [repeat split|]. simpl. intros W. apply (upd_dir_wf _ _ _ _ U W).
  intros es0 es0' F W0. destruct (lookup_dir n es0) eqn:L; [discriminate|].
  assert (F' : put_file n c es0 = es0').
  { destruct (lookup_file n es0);
      [destruct (is_denied s (d ++ [n]))|destruct (is_denied s d)]; congruence. }
  subst es0'. exact (put_file_wf _ _ _ L W0).
Qed.

Lemma wf_rmFile d n : inv_prog wf_rel (rmFile d n).
Proof.
  intros s r s' E. unfold rmFile, bind, get, lift_fs in E.
  destruct (upd_dir d _ (st_root s)) as [es'|e] eqn:U; injection E as _ <-;
    [|split; [repeat split|auto]].
  split; [repeat split|]. simpl. intros W. apply (upd_dir_wf _ _ _ _ U W).
  intros es0 es0' F W0. destruct (lookup_file n es0); [|destruct (lookup_dir n es0); discriminate].
  destruct (is_denied s d); [discriminate|]. injection F as <-. exact (del_file_wf _ _ W0).
Qed.

Lemma wf_ensureDir d : inv_prog wf_rel (ensureDir d).
Proof.
  intros s r s' E. unfold ensureDir, bind, get, lift_fs in E.
  destruct (mkdir_in _ [] d (st_root s)) as [es'|e] eqn:Mk; injection E as _ <-;
    [|split; [repeat split|auto]].
  split; [repeat split|]. simpl. exact (mkdir_in_wf _ _ _ _ _ Mk).
Qed.

Lemma wf_log m : inv_prog wf_rel (log m).
Proof. intros s r s' E. apply log_spec in E as [_ ->]. split; [repeat split|auto]. Qed.

Ltac wf_tac :=
  repeat match goal with
  | |- inv_prog _ (bind _ _) => apply inv_bind; [typeclasses eauto| |intro]
  | |- inv_prog _ (catch _ _) => apply inv_catch; [typeclasses eauto| |intro]
  | |- inv_prog _ (match ?x with _ => _ end) => destruct x
  | |- inv_prog _ (if ?b then _ else _) => destruct b
  | |- inv_prog wf_rel (log _) => apply wf_log
  | |- inv_prog wf_rel (ensureDir _) => apply wf_ensureDir
  | |- inv_prog wf_rel (writeFile _ _ _) => apply wf_writeFile
  | |- inv_prog wf_rel (rmFile _ _) => apply wf_rmFile
  | |- inv_prog wf_rel _ =>
      apply readonly_inv; [typeclasses eauto|solve [auto with readonly]]
  end.

Lemma wf_sync_step fm all j : inv_prog wf_rel (sync_step fm all j).
Proof. unfold sync_step, syncIssue, moveTaskFile. wf_tac. Qed.

Lemma wf_sync_loop fm all l n : inv_prog wf_rel (sync_loop fm all l n).
Proof.
  revert n. induction l as [|j l IH]; intros n; simpl; [wf_tac|].
  apply inv_bind; [typeclasses eauto|apply wf_sync_step|intros m; apply IH].
Qed.

Lemma wf_syncIssues issues ign idm : inv_prog wf_rel (syncIssues issues ign idm).
Proof. unfold syncIssues. wf_tac. apply wf_sync_loop. Qed.

Lemma wf_initialize : inv_prog wf_rel initialize.
Proof. unfold initialize. wf_tac. Qed.

(** ** Removing files *)

Lemma files_entry_prefix e : forall dir x, In x (files_entry dir e) -> exists t, fdir x = dir ++ t.
Proof.
  induction e as [n c|n es Hes] using entry_ind'; intros dir x Hx.
  - destruct Hx as [<-|[]]. exists []. now rewrite app_nil_r.
  - rewrite files_entry_Dir in Hx. unfold files_in in Hx. apply in_flat_map in Hx as (e & He & Hx).
    rewrite Forall_forall in Hes. destruct (Hes e He _ _ Hx) as [t Ht].
    exists (n :: t). rewrite Ht, <- app_assoc. reflexivity.
Qed.

Lemma files_in_get d : forall es dir n c,
  wf_tree es = true -> In (dir ++ d, n, c) (files_in dir es) ->
  exists es0, get_dir d es = Some es0 /\ In (File n c) es0.
Proof.
  induction d as [|m d IH]; intros es dir n c W Hx;
    unfold files_in in Hx; apply in_flat_map in Hx as (e & He & Hx).
  - rewrite app_nil_r in Hx. destruct e as [m c0|m sub].
    + destruct Hx as [Ex|[]]. injection Ex as -> ->. exists es. split; [reflexivity|exact He].
    + rewrite files_entry_Dir in Hx. unfold files_in in Hx. apply in_flat_map in Hx as (e' & _ & Hx).
      destruct (files_entry_prefix _ _ _ Hx) as [t Ht]. unfold fdir in Ht. simpl in Ht.
      apply (f_equal (@length string)) in Ht. rewrite !length_app in Ht. simpl in Ht. lia.
  - destruct e as [m0 c0|m0 sub].
    + destruct Hx as [Ex|[]]. injection Ex as Ex _ _.
      apply (f_equal (@length string)) in Ex. rewrite !length_app in Ex. simpl in Ex. lia.
    + rewrite files_entry_Dir in Hx.
      assert (Hx' := Hx). unfold files_in in Hx'. apply in_flat_map in Hx' as (e' & _ & Hx').
      destruct (files_entry_prefix _ _ _ Hx') as [t Ht]. unfold fdir in Ht. simpl in Ht.
      rewrite <- app_assoc in Ht. apply app_inv_head in Ht. injection Ht as <- ->.
      apply wf_tree_iff in W as W'. destruct W' as [N F].
      simpl. rewrite (lookup_dir_in _ _ _ N He).
      apply IH with (dir := dir ++ [m]); [|now rewrite <- app_assoc].
      rewrite <- (wf_entry_Dir m). exact (F _ He).
Qed.

Lemma rmFile_ok d n c s :
  wf_tree (st_root s) = true -> st_denied s = [] -> In (d, n, c) (files s) ->
  exists s', rmFile d n s = (Ok tt, s').
Proof.
  intros W D Hx. destruct (files_in_get d (st_root s) [] n c W Hx) as (es0 & G & Hf).
  destruct (lookup_file_in _ _ _ Hf) as [c' Lf].
  unfold rmFile, bind, get, lift_fs. unfold is_denied. rewrite D. simpl.
  edestruct (upd_dir_ok d) as [es' ->]; [exact G| |]. { cbv beta. rewrite Lf. reflexivity. }
  eexists. reflexivity.
Qed.

Lemma cnt_mid k l1 l2 x : fname x = md k -> cnt k (l1 ++ x :: l2) = S (cnt k (l1 ++ l2)).
Proof.
  intros Nx. unfold cnt. rewrite !filter_app. simpl. unfold named at 2. rewrite Nx, String.eqb_refl.
  rewrite !length_app. simpl. lia.
Qed.

Lemma removeTaskFile_Ok k s : fst (removeTaskFile k s) = Ok tt.
Proof.
  unfold removeTaskFile, catch.
  match goal with |- fst (match ?x with _ => _ end) = _ => destruct x as [[[]|e] s1] end;
    reflexivity.
Qed.

Lemma wf_removeTaskFile k : inv_prog wf_rel (removeTaskFile k).
Proof. unfold removeTaskFile. wf_tac. Qed.

(** With a well-formed tree, no write-protected folder and nothing
    unreadable, [removeTaskFile k] removes one file named [{k}.md] when
    there is one. *)
Lemma removeTaskFile_count k s r s' :
  wf_tree (st_root s) = true -> st_denied s = [] -> st_unreadable s = [] ->
  removeTaskFile k s = (r, s') ->
  wf_rel s s' /\ cnt k (files s') = pred (cnt k (files s)).
Proof.
  intros W D U E. split; [revert E; apply wf_removeTaskFile|].
  unfold removeTaskFile in E. apply catch_cases in E as (r1 & s1 & E1 & E).
  apply bind_cases in E1 as (r2 & s2 & E2 & E1). rewrite findExisting_eq in E2.
  injection E2 as <- <-. rewrite search_spec in E1. fold (visible_files s) in E1.
  rewrite visible_files_all in E1 by exact U.
  destruct (find (named (md k)) (files s)) as [x|] eqn:F.
  - apply find_some in F as [Hx Nx]. unfold named in Nx. apply String.eqb_eq in Nx.
    destruct x as [[d n] c]. unfold fname in Nx. simpl in Nx. cbn [option_map fdir fst] in E1.
    subst n.
    destruct (rmFile_ok d (md k) c s W D Hx) as [s3 E3]. rewrite E3 in E1.
    injection E1 as <- <-. destruct E as [_ ->].
    apply rmFile_spec in E3 as [[_ [e' ?]]|(_ & _ & _ & l1 & l2 & c0 & H1 & H2)]; [discriminate|].
    rewrite H2. unfold files in H1 |- *. rewrite H1, cnt_mid by reflexivity. reflexivity.
  - simpl in E1. injection E1 as <- <-. destruct E as [_ ->].
    assert (cnt k (files s) = 0) as ->; [|reflexivity].
    unfold cnt. destruct (filter (named (md k)) (files s)) as [|y l] eqn:Fl; [reflexivity|].
    assert (In y (filter (named (md k)) (files s))) as Hy by (rewrite Fl; now left).
    apply filter_In in Hy as [Hy Ny]. rewrite (find_none _ _ F y Hy) in Ny. discriminate.
Qed.

Lemma for_each_remove l s r s' :
  wf_tree (st_root s) = true -> st_denied s = [] -> st_unreadable s = [] ->
  for_each l removeTaskFile s = (r, s') ->
  wf_rel s s' /\ forall k, cnt k (files s') = cnt k (files s) - count_occ string_dec l k.
Proof.
  revert s. induction l as [|k0 l IH]; intros s W D U E; simpl in E.
  - injection E as _ <-. split; [reflexivity|]. intros k. simpl. lia.
  - apply bind_cases in E as (r1 & s1 & E1 & E).
    pose proof (removeTaskFile_Ok k0 s) as Ok1. rewrite E1 in Ok1. simpl in Ok1. subst r1.
    destruct (removeTaskFile_count k0 s _ s1 W D U E1) as [R1 C1].
    pose proof R1 as [[_ [D1 U1]] W1].
    destruct (IH s1 (W1 W) ltac:(congruence) ltac:(congruence) E) as [R2 C2].
    split; [transitivity s1; [exact R1|exact R2]|].
    intros k. rewrite C2. simpl. destruct (string_dec k0 k) as [<-|Ne].
    + rewrite C1. lia.
    + assert (cnt k (files s1) = cnt k (files s)) as ->; [|reflexivity].
      unfold cnt. f_equal. refine (proj2 (removeTaskFile_frame (named (md k)) k0 _ s _ s1 E1)).
      intros x Nx. unfold named. rewrite Nx. apply String.eqb_neq. intros Em.
      exact (Ne (md_inj _ _ Em)).
Qed.

Lemma task_file_name_md_nonempty k : task_file_name (md k) = true -> k <> EmptyString.
Proof. intros H ->. discriminate H. Qed.

(** Every file named [{k}.md], for a [k] outside [keys], puts [k] once into
    the keys [cleanupRemovedIssues] removes. *)
Lemma removed_count keys k L :
  existsb (String.eqb k) keys = false -> task_file_name (md k) = true ->
  cnt k L <= count_occ string_dec
    (filter (fun k => negb (existsb (String.eqb k) keys))
       (map (fun '(_, n) => strip_md n)
          (map (fun x => (fdir x, fname x)) (filter is_task_file L)))) k.
Proof.
  intros Ek Tk. induction L as [|x L IH]; [reflexivity|].
  unfold cnt in *. cbn [filter]. destruct (named (md k) x) eqn:Nx.
  - unfold named in Nx. apply String.eqb_eq in Nx.
    assert (is_task_file x = true) as ->.
    { unfold is_task_file. now rewrite Nx, endsWith_md_md, Tk. }
    cbn [map]. rewrite Nx, strip_md_md by exact (task_file_name_md_nonempty _ Tk).
    cbn [filter]. rewrite Ek. cbn [negb count_occ length].
    destruct (string_dec k k) as [_|N]; [lia|now destruct N].
  - destruct (is_task_file x); [|exact IH]. cbn [map filter].
    destruct (negb (existsb (String.eqb (strip_md (fname x))) keys)); [|exact IH].
    cbn [count_occ]. destruct (string_dec (strip_md (fname x)) k); lia.
Qed.

(** With a well-formed tree, no write-protected folder and nothing
    unreadable, [cleanupRemovedIssues keys] leaves only task files whose key
    is in [keys]. *)
Lemma cleanup_removes keys s r s' :
  wf_tree (st_root s) = true -> st_denied s = [] -> st_unreadable s = [] ->
  cleanupRemovedIssues keys s = (r, s') ->
  wf_rel s s' /\
  forall x, In x (files s') -> is_task_file x = true -> In (strip_md (fname x)) keys.
Proof.
  intros W D U E. unfold cleanupRemovedIssues in E.
  apply catch_cases in E as (r1 & s1 & E1 & E).
  apply bind_cases in E1 as (r2 & s2 & E2 & E1).
  unfold getExistingTaskFiles, bind, get, ret in E2. injection E2 as <- <-.
  destruct (for_each_remove _ _ _ _ W D U E1) as [R1 C1].
  assert (wf_rel s1 s' /\ files s' = files s1) as [R2 F2].
  { destruct r1 as [a|e]; [destruct E as [_ ->]; split; reflexivity|].
    apply log_spec in E as [_ ->]. split; [|reflexivity]. split; [repeat split|auto]. }
  split; [transitivity s1; assumption|]. rewrite F2.
  intros x Hx Tx. destruct (existsb (String.eqb (strip_md (fname x))) keys) eqn:Ek.
  - apply existsb_exists in Ek as (y & Hy & Ey). apply String.eqb_eq in Ey. now subst y.
  - exfalso. set (k := strip_md (fname x)) in *.
    unfold is_task_file in Tx. apply andb_prop in Tx as [_ Tx].
    assert (md k = fname x) as Mk by exact (task_file_name_md _ Tx).
    assert (Tk : task_file_name (md k) = true) by now rewrite Mk.
    pose proof (removed_count keys k (files s) Ek Tk) as Le.
    rewrite collect_spec in C1. specialize (C1 k). fold (visible_files s) in C1.
    rewrite visible_files_all in C1 by exact U.
    assert (0 < cnt k (files s1)) as Pos.
    { unfold cnt. destruct (filter (named (md k)) (files s1)) eqn:Fl; [|simpl; lia].
      assert (In x (filter (named (md k)) (files s1))) as Hf; [|rewrite Fl in Hf; destruct Hf].
      apply filter_In. split; [exact Hx|]. unfold named. rewrite Mk. apply String.eqb_refl. }
    lia.
Qed.

(** ** Which task files the [sync-issues] tool leaves alone *)







(** ** Orphan cleanup *)




(* ================================================================== *)
(** * Further properties of the code *)

(** ** Looking task files up *)

Lemma find_named_none n l :
  find (named n) l = None -> ~ has_name n l.
Proof.
  intros F (x & Hx & Nx). apply (find_none _ _ F) in Hx. unfold named in Hx.
  rewrite Nx, String.eqb_refl in Hx. discriminate.
Qed.

Lemma find_named_some n l x :
  find (named n) l = Some x -> In x l /\ fname x = n.
Proof.
  intros F. apply find_some in F as [Hx Nx]. split; [exact Hx|]. now apply String.eqb_eq.
Qed.

Lemma taskFileExists_found k s :
  exists b, taskFileExists k s = (Ok b, s) /\ (b = true <-> has_name (md k) (visible_files s)).
Proof.
  unfold taskFileExists, bind. rewrite findExisting_eq. cbn. rewrite search_spec.
  fold (visible_files s).
  destruct (find (named (md k)) (visible_files s)) as [x|] eqn:F; cbn.
  - exists true. split; [reflexivity|]. split; [intros _|reflexivity].
    apply find_named_some in F as [Hx Nx]. exists x. auto.
  - exists false. split; [reflexivity|]. split; [discriminate|].
    intros H. exfalso. exact (find_named_none _ _ F H).
Qed.

(** On a tree whose folders can all be listed, [taskFileExists k] reads
    nothing but the tree, and answers whether a file named [{k}.md] is
    anywhere in it, at any depth. *)
Theorem taskFileExists_spec k s :
  st_unreadable s = [] ->
  exists b, taskFileExists k s = (Ok b, s) /\ (b = true <-> has_name (md k) (files s)).
Proof. intros U. rewrite <- (visible_files_all s U). exact (taskFileExists_found k s). Qed.

Lemma taskFileExists_spec_witness :
  let s := sample_state [Dir "others" []; Dir "sprint-3" [Dir "deep" [File "A-1.md" "# x"]]] in
  st_unreadable s = [] /\
  exists b, taskFileExists "A-1" s = (Ok b, s) /\ (b = true <-> has_name "A-1.md" (files s)).
Proof. intros s. split; [reflexivity|]. apply (taskFileExists_spec "A-1" s). reflexivity. Defined.

(** On a tree whose folders can all be listed, [getExistingTaskFiles] lists,
    in traversal order, the folder and name of exactly the files of the tree
    whose name has the [PROJ-123.md] shape. *)
Theorem getExistingTaskFiles_lists_task_files s :
  st_unreadable s = [] ->
  getExistingTaskFiles s = (Ok (map (fun x => (fdir x, fname x)) (filter is_task_file (files s))), s).
Proof.
  intros U. unfold getExistingTaskFiles, bind, get, ret. rewrite collect_spec.
  fold (visible_files s). now rewrite visible_files_all.
Qed.

Lemma getExistingTaskFiles_lists_task_files_witness :
  let s := sample_state [Dir "others" [File "A-1.md" "# x"; File "notes.txt" ""];
                         Dir "A-1" [File "A-2.md" "# y"]] in
  st_unreadable s = [] /\
  getExistingTaskFiles s = (Ok [(["others"], "A-1.md"); (["A-1"], "A-2.md")], s).
Proof.
  intros s. split; [reflexivity|].
  rewrite (getExistingTaskFiles_lists_task_files s eq_refl). vm_compute. reflexivity.
Defined.

Lemma get_dir_wf p : forall es es0, wf_tree es = true -> get_dir p es = Some es0 -> wf_tree es0 = true.
Proof.
  induction p as [|n p IH]; intros es es0 W G; simpl in G; [now injection G as <-|].
  destruct (lookup_dir n es) as [sub|] eqn:L; [|discriminate].
  destruct (lookup_dir_split _ _ _ L) as (e1 & e2 & -> & _).
  exact (IH _ _ (wf_tree_sub _ _ _ _ W) G).
Qed.

Lemma lookup_file_unique n c es :
  NoDup (map entry_name es) -> In (File n c) es -> lookup_file n es = Some c.
Proof.
  induction es as [|e es IH]; simpl; [intros _ []|].
  intros Hn Hin. inversion Hn as [|? ? Hx Hn']; subst.
  destruct Hin as [->|Hin].
  - now rewrite String.eqb_refl.
  - assert (entry_name e <> n) as Ne.
    { intros <-. apply Hx. apply in_map_iff. exists (File (entry_name e) c). auto. }
    destruct e as [m c0|m sub]; simpl in Ne; [|exact (IH Hn' Hin)].
    apply String.eqb_neq in Ne. rewrite Ne. exact (IH Hn' Hin).
Qed.

(** On a well-formed tree, [readFile] of a listed readable file gives its
    content. *)
Lemma readFile_listed d n c s :
  wf_tree (st_root s) = true -> st_unreadable s = [] ->
  In (d, n, c) (files s) -> readFile d n s = (Ok c, s).
Proof.
  intros W U Hx. destruct (files_in_get d (st_root s) [] n c W Hx) as (es0 & G & Hf).
  unfold readFile, bind, get. rewrite G.
  apply wf_tree_iff in W as W'. pose proof (get_dir_wf _ _ _ W G) as W0.
  apply wf_tree_iff in W0 as [N0 _]. rewrite (lookup_file_unique _ _ _ N0 Hf).
  now rewrite is_unreadable_nil.
Qed.

Lemma readTaskFile_eq k s :
  wf_tree (st_root s) = true -> st_unreadable s = [] ->
  readTaskFile k s =
    (Ok (option_map (fun x => parseTaskFile (snd x)) (find (named (md k)) (files s))), s).
Proof.
  intros W U. unfold readTaskFile, catch, bind. rewrite findExisting_eq. rewrite search_spec.
  fold (visible_files s). rewrite (visible_files_all s U). destruct (find (named (md k)) (files s)) as [x|] eqn:F; [|reflexivity].
  apply find_named_some in F as [Hx Nx]. destruct x as [[d n] c]. unfold fname in Nx.
  simpl in Nx. subst n. cbn [option_map fdir fst snd].
  now rewrite (readFile_listed _ _ _ _ W U Hx).
Qed.

(** On a tree whose folders hold distinct names and whose folders and files
    can all be read, [readTaskFile k] changes
    nothing and returns [null] when no file is named [{k}.md], and otherwise
    the parsed title and description of the first such file in traversal
    order. *)
Theorem readTaskFile_first_file k s :
  wf_tree (st_root s) = true -> st_unreadable s = [] ->
  (~ has_name (md k) (files s) -> readTaskFile k s = (Ok None, s)) /\
  (forall d c, find (named (md k)) (files s) = Some (d, md k, c) ->
               readTaskFile k s = (Ok (Some (parseTaskFile c)), s)).
Proof.
  intros W U. rewrite (readTaskFile_eq _ _ W U). split.
  - intros N. destruct (find (named (md k)) (files s)) as [x|] eqn:F; [|reflexivity].
    exfalso. apply N. apply find_named_some in F as [Hx Nx]. exists x. auto.
  - intros d c ->. reflexivity.
Qed.

Lemma readTaskFile_first_file_witness :
  let s := sample_state [Dir "others" [File "A-1.md" "# Fix login"];
                         Dir "sprint-3" [File "A-1.md" "# Other copy"]] in
  wf_tree (st_root s) = true /\ st_unreadable s = [] /\
  readTaskFile "A-1" s = (Ok (Some (parseTaskFile "# Fix login")), s).
Proof.
  intros s. split; [reflexivity|]. split; [reflexivity|].
  apply (proj2 (readTaskFile_first_file "A-1" s eq_refl eq_refl) ["others"] "# Fix login").
  vm_compute. reflexivity.
Defined.

(** ** Reconciling, moving and removing task files *)


(** [syncIssues] never deletes: every file name present before the run is
    still present after it, whether the run succeeds or fails half way. *)
Theorem syncIssues_keeps_every_name issues ign idm s r s' n :
  syncIssues issues ign idm s = (r, s') -> has_name n (files s) -> has_name n (files s').
Proof. intros E. exact (proj2 (syncIssues_grows issues ign idm s r s' E) n). Qed.

Lemma syncIssues_keeps_every_name_witness :
  let s := sample_state [Dir "notes" [File "todo.txt" "x"]] in
  let run := syncIssues [sample_issue 1 "A-1" "Task" None] [] no_keys s in
  has_name "todo.txt" (files (snd run)).
Proof.
  intros s run.
  apply (syncIssues_keeps_every_name [sample_issue 1 "A-1" "Task" None] [] no_keys s (fst run) (snd run)).
  - apply surjective_pairing.
  - exists (["notes"], "todo.txt", "x"). split; [left; reflexivity|reflexivity].
Defined.

(** A successful [syncIssues] leaves a file named [{key}.md] for every
    issue that the ignore list lets through. *)
Theorem syncIssues_success_leaves_task_files issues ign idm s s' :
  syncIssues issues ign idm s = (Ok tt, s') ->
  forall j, In j (filterIgnoredIssueTypes issues ign) -> has_name (md (issueKey j)) (files s').
Proof. intros E j Hj. exact (syncIssues_has _ _ _ _ _ E j Hj). Qed.

Lemma syncIssues_success_leaves_task_files_witness :
  let I := [sample_issue 1 "A-1" "Task" None; sample_issue 2 "A-2" "Bug" (Some 1%Z)] in
  has_name "A-2.md" (files (snd (syncIssues I [] no_keys (sample_state [])))).
Proof.
  intros I.
  apply (syncIssues_success_leaves_task_files I [] no_keys (sample_state [])
           (snd (syncIssues I [] no_keys (sample_state []))))
    with (j := sample_issue 2 "A-2" "Bug" (Some 1%Z)).
  - vm_compute. reflexivity.
  - right. left. reflexivity.
Defined.

(** [syncIssues] leaves every file whose name is not [{key}.md] for one of
    the issues it syncs exactly as it was: user files, [.last-sync], and the
    task files of other or ignored issues. *)
Theorem syncIssues_leaves_other_files issues ign idm s r s' :
  syncIssues issues ign idm s = (r, s') ->
  let P := fun x => negb (existsb (fun j => String.eqb (fname x) (md (issueKey j)))
                                  (filterIgnoredIssueTypes issues ign)) in
  filter P (files s') = filter P (files s).
Proof.
  intros E P. refine (proj2 (syncIssues_frame P issues ign idm _ s r s' E)).
  intros j Hj x Nx. unfold P. apply negb_false_iff, existsb_exists.
  exists j. split; [exact Hj|]. rewrite Nx. apply String.eqb_refl.
Qed.

Lemma syncIssues_leaves_other_files_witness :
  let s := sample_state [Dir "others" [File "B-9.md" "# Old"; File "A-1.md" "# Stale"]] in
  let run := syncIssues [sample_issue 1 "A-1" "Task" None] [] no_keys s in
  In (["others"], "B-9.md", "# Old") (files (snd run)).
Proof.
  intros s run.
  pose proof (syncIssues_leaves_other_files [sample_issue 1 "A-1" "Task" None] [] no_keys s
                (fst run) (snd run) (surjective_pairing _)) as F.
  cbv zeta in F.
  assert (In (["others"], "B-9.md", "# Old")
            (filter (fun x => negb (existsb (fun j => String.eqb (fname x) (md (issueKey j)))
                                     (filterIgnoredIssueTypes [sample_issue 1 "A-1" "Task" None] [])))
                    (files (snd run)))) as H.
  { rewrite F. vm_compute. left. reflexivity. }
  apply filter_In in H. exact (proj1 H).
Defined.

(** The [sync-issues] tool keeps the shape of a directory tree: when no
    folder holds two entries of the same name before the run, none does
    after it. *)
Theorem sync_issues_tool_keeps_tree_shape lastSync issues ign idm json s r s' :
  wf_tree (st_root s) = true ->
  sync_issues_tool lastSync issues ign idm json s = (r, s') ->
  wf_tree (st_root s') = true.
Proof.
  intros W E.
  assert (I : inv_prog wf_rel (sync_issues_tool lastSync issues ign idm json)).
  { unfold sync_issues_tool. wf_tac.
    - apply wf_initialize.
    - apply wf_syncIssues.
    - apply (cleanup_inv wf_rel); [intros k _; apply wf_removeTaskFile|apply wf_log]. }
  exact (proj2 (I s r s' E) W).
Qed.

Lemma sync_issues_tool_keeps_tree_shape_witness :
  let s := sample_state [Dir "others" [File "A-1.md" "# Old"; File "Z-5.md" "# Gone"]] in
  let run := sync_issues_tool None [sample_issue 1 "A-1" "Task" None] [] no_keys "{}" s in
  wf_tree (st_root (snd run)) = true.
Proof.
  intros s run.
  refine (sync_issues_tool_keeps_tree_shape None [sample_issue 1 "A-1" "Task" None] [] no_keys
            "{}" s (fst run) (snd run) _ _).
  - reflexivity.
  - apply surjective_pairing.
Defined.

(** On a well-formed tree with no write-protected folder and whose
    folders can all be listed, [removeTaskFile k] reports success, removes
    exactly one file named [{k}.md] when there is one (nothing otherwise),
    and leaves every file of another name. *)
Theorem removeTaskFile_removes_one_copy k s r s' :
  wf_tree (st_root s) = true -> st_denied s = [] -> st_unreadable s = [] ->
  removeTaskFile k s = (r, s') ->
  r = Ok tt /\ cnt k (files s') = pred (cnt k (files s)) /\
  filter (fun x => negb (named (md k) x)) (files s') =
    filter (fun x => negb (named (md k) x)) (files s).
Proof.
  intros W D U E. split; [|split].
  - pose proof (removeTaskFile_Ok k s) as H. rewrite E in H. exact H.
  - exact (proj2 (removeTaskFile_count k s r s' W D U E)).
  - refine (proj2 (removeTaskFile_frame _ k _ s r s' E)).
    intros x Nx. unfold named. now rewrite Nx, String.eqb_refl.
Qed.

Lemma removeTaskFile_removes_one_copy_witness :
  let s := sample_state [Dir "others" [File "A-1.md" "# One"]; Dir "A-2" [File "A-1.md" "# Two"]] in
  cnt "A-1" (files (snd (removeTaskFile "A-1" s))) = 1.
Proof.
  intros s.
  destruct (removeTaskFile_removes_one_copy "A-1" s (fst (removeTaskFile "A-1" s))
              (snd (removeTaskFile "A-1" s)) eq_refl eq_refl eq_refl (surjective_pairing _))
    as (_ & C & _).
  rewrite C. reflexivity.
Defined.

Lemma cleanup_inv_removed R `{PreOrder _ R} keys :
  (forall k, task_file_name (md k) = true -> existsb (String.eqb k) keys = false ->
             inv_prog R (removeTaskFile k)) ->
  (forall m, inv_prog R (log m)) ->
  inv_prog R (cleanupRemovedIssues keys).
Proof.
  intros Hrm Hlog s r s' E. unfold cleanupRemovedIssues in E.
  apply catch_cases in E as (r1 & s1 & E1 & E).
  apply bind_cases in E1 as (r2 & s2 & E2 & E1).
  unfold getExistingTaskFiles, bind, get, ret in E2. injection E2 as <- <-.
  assert (R1 : R s s1).
  { apply (inv_for_each R _ removeTaskFile) in E1; [exact E1|].
    intros k Hk. pose proof (removed_keys_task_named _ _ _ Hk) as T.
    apply filter_In in Hk as [_ Hk]. apply Hrm; [exact T|now apply negb_true_iff]. }
  destruct r1 as [a|e].
  - destruct E as [_ ->]. exact R1.
  - transitivity s1; [exact R1|exact (Hlog _ _ _ _ E)].
Qed.

Lemma cleanup_frame_current keys :
  inv_prog (files_rel (frame (fun x => negb (task_key_outside keys x))))
           (cleanupRemovedIssues keys).
Proof.
  apply cleanup_inv_removed; [typeclasses eauto| |intros m; apply inv_log; typeclasses eauto].
  intros k T Ek. apply removeTaskFile_frame. intros x Nx.
  unfold task_key_outside, is_task_file. rewrite Nx, endsWith_md_md, T.
  rewrite strip_md_md by exact (task_file_name_md_nonempty _ T). now rewrite Ek.
Qed.

(** On a well-formed tree with no write-protected folder and whose folders
    can all be listed, [cleanupRemovedIssues keys] reports success and
    leaves exactly the files
    that are not task files of a key outside [keys], in their order: it
    removes every [PROJ-123.md] whose key is not current and nothing else. *)
Theorem cleanupRemovedIssues_exact keys s r s' :
  wf_tree (st_root s) = true -> st_denied s = [] -> st_unreadable s = [] ->
  cleanupRemovedIssues keys s = (r, s') ->
  r = Ok tt /\ files s' = filter (fun x => negb (task_key_outside keys x)) (files s).
Proof.
  intros W D U E. split.
  - unfold cleanupRemovedIssues in E. apply catch_cases in E as ([[]|e] & s1 & _ & E).
    + now destruct E as [-> _].
    + now apply log_spec in E as [-> _].
  - rewrite <- (proj2 (cleanup_frame_current keys s r s' E)).
    destruct (cleanup_removes keys s r s' W D U E) as [_ Hk].
    symmetry. apply forallb_filter_id, forallb_forall. intros x Hx.
    unfold task_key_outside. destruct (is_task_file x) eqn:T; [|reflexivity].
    specialize (Hk x Hx T). simpl. apply negb_true_iff, negb_false_iff, existsb_exists.
    exists (strip_md (fname x)). split; [exact Hk|apply String.eqb_refl].
Qed.

Lemma cleanupRemovedIssues_exact_witness :
  let s := sample_state [Dir "others" [File "A-1.md" "# Kept"; File "Z-5.md" "# Gone";
                                       File "notes.txt" "x"]] in
  files (snd (cleanupRemovedIssues ["A-1"] s)) =
    [(["others"], "A-1.md", "# Kept"); (["others"], "notes.txt", "x")].
Proof.
  intros s.
  rewrite (proj2 (cleanupRemovedIssues_exact ["A-1"] s (fst (cleanupRemovedIssues ["A-1"] s))
                    (snd (cleanupRemovedIssues ["A-1"] s)) eq_refl eq_refl eq_refl
                    (surjective_pairing _))).
  vm_compute. reflexivity.
Defined.

(** ** Parsing task files *)

Lemma split_join_lines_LF l b :
  l <> [] -> Forall (fun x => has_char LF x = false) l ->
  split_lines (join_lines l ++ String LF b) = l ++ split_lines b.
Proof.
  induction l as [|x l IH]; intros Hne Hl; [congruence|].
  inversion Hl as [|? ? Hx Hl']; subst.
  destruct l as [|y l].
  - simpl join_lines. now rewrite split_lines_app_LF.
  - change (join_lines (x :: y :: l)) with (x ++ String LF (join_lines (y :: l)))%string.
    rewrite str_app_assoc.
    change (String LF (join_lines (y :: l)) ++ String LF b)%string
      with (String LF (join_lines (y :: l) ++ String LF b))%string.
    rewrite split_lines_app_LF by exact Hx. rewrite IH by (discriminate || exact Hl'). reflexivity.
Qed.

Lemma find_skip {A} (p : A -> bool) pre x l :
  (forall y, In y pre -> p y = false) -> p x = true -> find p (pre ++ x :: l) = Some x.
Proof.
  intros Hp Hx. induction pre as [|y pre IH]; simpl; [now rewrite Hx|].
  rewrite (Hp y (or_introl eq_refl)). apply IH. intros z Hz. apply Hp. now right.
Qed.

Lemma findIndex_skip {A} (p : A -> bool) pre x l : forall i,
  (forall y, In y pre -> p y = false) -> p x = true ->
  findIndex_from p i (pre ++ x :: l) = Some (i + length pre).
Proof.
  induction pre as [|y pre IH]; intros i Hp Hx; simpl; [now rewrite Hx, Nat.add_0_r|].
  rewrite (Hp y (or_introl eq_refl)). rewrite IH; [f_equal; lia| |exact Hx].
  intros z Hz. apply Hp. now right.
Qed.

Lemma findIndex_none {A} (p : A -> bool) l : forall i,
  (forall y, In y l -> p y = false) -> findIndex_from p i l = None.
Proof.
  induction l as [|y l IH]; intros i Hp; simpl; [reflexivity|].
  rewrite (Hp y (or_introl eq_refl)). apply IH. intros z Hz. apply Hp. now right.
Qed.

Lemma parse_after_header pre t body :
  Forall (fun l => has_char LF l = false /\ startsWith "# " l = false) pre ->
  has_char LF t = false ->
  parseTaskFile (join_lines (pre ++ [("# " ++ t)%string]) ++ String LF body) = (trim t, trim body).
Proof.
  intros Hpre Ht. unfold parseTaskFile.
  assert (Hn : forall y, In y pre -> startsWith "# " y = false).
  { intros y Hy. rewrite Forall_forall in Hpre. exact (proj2 (Hpre y Hy)). }
  rewrite split_join_lines_LF.
  - rewrite <- app_assoc. cbn [List.app].
    rewrite (find_skip _ _ _ _ Hn (prefix_header t)).
    rewrite (findIndex_skip _ _ _ _ 0 Hn (prefix_header t)). simpl (0 + _).
    rewrite skipn_app, skipn_all2 by lia. rewrite Nat.sub_succ_l, Nat.sub_diag by lia.
    cbn [skipn List.app]. now rewrite replace_first_header, join_split_lines.
  - destruct pre; discriminate.
  - apply Forall_app. split.
    + eapply Forall_impl; [|exact Hpre]. intros a [Ha _]. exact Ha.
    + constructor; [|constructor]. exact Ht.
Qed.


(** The title comes from the first line that starts with ["# "], the lines
    before it are dropped, and everything after it is the description,
    trimmed, even lines that start with ["# "] themselves. *)
Theorem parseTaskFile_first_header pre t body :
  Forall (fun l => has_char LF l = false /\ startsWith "# " l = false) pre ->
  has_char LF t = false ->
  parseTaskFile (join_lines (pre ++ [("# " ++ t)%string]) ++ String LF body) = (trim t, trim body).
Proof. exact (parse_after_header pre t body). Qed.

Lemma parseTaskFile_first_header_witness :
  parseTaskFile (join_lines ["Preamble"; "# Fix login"] ++ String LF "Steps
# Not a title") =
    ("Fix login", "Steps
# Not a title").
Proof.
  refine (parseTaskFile_first_header ["Preamble"] "Fix login" "Steps
# Not a title" _ eq_refl).
  repeat constructor.
Defined.

(** A file in which no line starts with ["# "] (a bare ["#Title"] or a
    ["## Title"] does not) reads as an empty title and an empty
    description. *)
Theorem parseTaskFile_no_header content :
  (forall l, In l (split_lines content) -> startsWith "# " l = false) ->
  parseTaskFile content = (EmptyString, EmptyString).
Proof.
  intros H. unfold parseTaskFile.
  destruct (find (startsWith "# ") (split_lines content)) as [x|] eqn:F.
  - apply find_some in F as [Hx Px]. rewrite (H x Hx) in Px. discriminate.
  - now rewrite findIndex_none.
Qed.

Lemma parseTaskFile_no_header_witness :
  parseTaskFile "#Title
## Sub
text" = (EmptyString, EmptyString).
Proof.
  apply parseTaskFile_no_header. intros l Hl. vm_compute in Hl.
  repeat destruct Hl as [<-|Hl]; [reflexivity..|destruct Hl].
Defined.

(** ** Writing an issue and reading it back *)

Lemma generated_parses k t desc f :
  has_char LF t = false ->
  parseTaskFile (generateMarkdownContent (mkTaskFile k t desc f)) = (trim t, trim desc).
Proof.
  intros Ht. rewrite generate_shape.
  refine (eq_trans (parse_after_header [] t _ (Forall_nil _) Ht) _).
  now rewrite trim_LF, trim_empty_desc.
Qed.

Lemma wf_syncIssue i all : inv_prog wf_rel (syncIssue i all).
Proof. unfold syncIssue. wf_tac. Qed.

Lemma getIssueFolderPath_ok i all s : exists d, getIssueFolderPath i all s = (Ok d, s).
Proof.
  unfold getIssueFolderPath, bind, get, ret. cbv zeta.
  repeat (try rewrite findExisting_eq;
          match goal with |- context [match ?x with _ => _ end] => destruct x end);
    eexists; reflexivity.
Qed.

Lemma issueToTaskFile_eq i all s :
  exists d, issueToTaskFile i all s =
            (Ok (mkTaskFile (issueKey i) (summary i) (description i) d), s).
Proof.
  destruct (getIssueFolderPath_ok i all s) as [d G]. exists d.
  unfold issueToTaskFile, bind. now rewrite G.
Qed.

(** A successful [syncIssue] of an issue with no task file yet writes its
    file where [readTaskFile] finds it first. *)
Lemma syncIssue_read_back i all s s1 :
  wf_tree (st_root s) = true -> st_unreadable s = [] -> ~ has_name (md (issueKey i)) (files s) ->
  has_char LF (summary i) = false ->
  syncIssue i all s = (Ok tt, s1) ->
  readTaskFile (issueKey i) s1 = (Ok (Some (trim (summary i), trim (description i))), s1).
Proof.
  intros W U N Ht E.
  pose proof (wf_syncIssue i all s _ s1 E) as [[_ [_ U1]] W1].
  specialize (W1 W). rewrite U in U1.
  unfold syncIssue in E. apply catch_cases in E as (r1 & s2 & E1 & E).
  destruct r1 as [[]|e]; [destruct E as [_ <-]|discriminate E].
  destruct (issueToTaskFile_eq i all s) as [d Ei].
  unfold bind at 1 in E1. rewrite Ei in E1. cbn [tf_filePath] in E1.
  apply bind_cases in E1 as (r3 & s3 & E3 & E1).
  apply ensureDir_spec in E3 as (_ & F3 & _).
  destruct r3 as [[]|e]; [|destruct E1 as [E1 _]; discriminate E1].
  set (C := generateMarkdownContent (mkTaskFile (issueKey i) (summary i) (description i) d)) in E1.
  apply writeFile_spec in E1 as [[_ [e Ee]]|(_ & _ & Hs)]; [discriminate Ee|].
  rewrite F3 in Hs. destruct Hs as [(l1 & l2 & c0 & H1 & _)|(l1 & l2 & H1 & H2)].
  - exfalso. apply N. rewrite H1. apply has_name_mid.
  - rewrite (readTaskFile_eq _ _ W1 U1). unfold files in H2 |- *. rewrite H2.
    rewrite find_skip; [|intros y Hy; unfold named; apply String.eqb_neq; intros Ny;
                          apply N; exists y; split; [rewrite H1; apply in_or_app; now left|exact Ny]
                        |unfold named; apply String.eqb_refl].
    cbn [option_map snd]. unfold C. now rewrite generated_parses.
Qed.

(** Syncing an issue whose summary has no line feed, when no task file for
    it exists yet, on a tree whose folders and files can all be read, and
    reading the task file back gives the trimmed summary and the trimmed
    description. *)
Theorem syncIssue_then_readTaskFile i all s s1 :
  wf_tree (st_root s) = true -> st_unreadable s = [] -> ~ has_name (md (issueKey i)) (files s) ->
  has_char LF (summary i) = false ->
  syncIssue i all s = (Ok tt, s1) ->
  readTaskFile (issueKey i) s1 = (Ok (Some (trim (summary i), trim (description i))), s1).
Proof. exact (syncIssue_read_back i all s s1). Qed.

Lemma syncIssue_then_readTaskFile_witness :
  let i := sample_issue 1 "A-1" "Task" None in
  let s1 := snd (syncIssue i [i] (sample_state [])) in
  readTaskFile "A-1" s1 = (Ok (Some ("Issue A-1", EmptyString)), s1).
Proof.
  intros i s1.
  apply (syncIssue_then_readTaskFile i [i] (sample_state []) s1).
  - reflexivity.
  - reflexivity.
  - intros (x & [] & _).
  - reflexivity.
  - vm_compute. reflexivity.
Defined.

(** ** The [update-issues] tool *)

Lemma readTaskFile_ok k s :
  exists o, readTaskFile k s = (Ok o, s) /\ (o <> None -> has_name (md k) (files s)).
Proof.
  unfold readTaskFile, catch, bind. rewrite findExisting_eq, search_spec.
  fold (visible_files s).
  destruct (find (named (md k)) (visible_files s)) as [x|] eqn:F; cbn [option_map].
  - assert (H : has_name (md k) (files s)).
    { apply find_named_some in F as [Hx Nx]. exists x. split; [|exact Nx].
      now apply visible_files_sub. }
    unfold readFile, bind, get, ret, throw. cbv beta.
    destruct (get_dir (fdir x) (st_root s)) as [es|];
      [destruct (lookup_file (md k) es);
       [destruct (is_unreadable s (fdir x ++ [md k]))|destruct (lookup_dir (md k) es)]|];
      eexists; (split; [reflexivity|intros _; exact H]).
  - exists None. split; [reflexivity|intros []; reflexivity].
Qed.

Lemma nonempty_true x : nonempty x = true <-> x <> EmptyString.
Proof.
  unfold nonempty. rewrite negb_true_iff. split.
  - intros H E. subst. discriminate.
  - intros H. now apply String.eqb_neq.
Qed.

(** What [compute_changes] puts in the request: a non-empty title that
    differs from the remote one, a non-empty description that differs from
    the remote one. *)
Lemma compute_changes_sound title desc o chg cl :
  compute_changes title desc o = (chg, cl) ->
  (forall t, ch_summary chg = Some t -> t <> EmptyString /\ t <> summary o) /\
  (forall d, ch_description chg = Some d -> d <> EmptyString /\ d <> description o).
Proof.
  unfold compute_changes. intros E. injection E as <- _. cbn [ch_summary ch_description].
  split.
  - intros t. destruct (nonempty title && negb (String.eqb title (summary o))) eqn:C;
      [|discriminate]. intros [= <-].
    apply andb_prop in C as [C1 C2]. apply nonempty_true in C1. apply negb_true_iff in C2.
    apply String.eqb_neq in C2. auto.
  - intros d. destruct (negb (String.eqb desc (description o))) eqn:C1; [|discriminate].
    apply negb_true_iff, String.eqb_neq in C1.
    destruct (negb (nonempty desc) && nonempty (description o)) eqn:C2; [discriminate|].
    intros [= <-]. split; [|exact C1]. intros ->. apply C1. symmetry.
    destruct (String.eqb (description o) EmptyString) eqn:C3; [now apply String.eqb_eq|].
    unfold nonempty in C2. rewrite C3 in C2. discriminate C2.
Qed.

Lemma update_step_ok g u k s :
  exists v, update_issue_step g u k s = (Ok v, s) /\
  forall ch, snd v = Some ch ->
    has_name (md k) (files s) /\
    (exists cl, fst v = KUpdated k cl \/ exists e, fst v = KUpdateFailed k e) /\
    exists o, g k = Ok o /\ (ch_summary ch <> None \/ ch_description ch <> None) /\
      (forall t, ch_summary ch = Some t -> t <> EmptyString /\ t <> summary o) /\
      (forall d, ch_description ch = Some d -> d <> EmptyString /\ d <> description o).
Proof.
  destruct (readTaskFile_ok k s) as (o & Ro & Ho).
  unfold update_issue_step, bind. rewrite Ro.
  destruct o as [[title desc]|]; [|exists (KNotFound k, None); split; [reflexivity|discriminate]].
  destruct (g k) as [oi|e] eqn:G; [|exists (KFetchFailed k, None); split; [reflexivity|discriminate]].
  destruct (compute_changes title desc oi) as [chg cl] eqn:Cc.
  destruct (compute_changes_sound _ _ _ _ _ Cc) as [S1 S2].
  destruct chg as [[t|] [d|]]; cbn [ch_summary ch_description] in *;
    try (exists (KNoChanges k, None); split; [reflexivity|discriminate]);
    (destruct (u k _) as [[]|e]; eexists; (split; [reflexivity|]);
     intros ch [= <-]; (split; [apply Ho; discriminate|]);
     (split; [exists cl; (left; reflexivity) || (right; eexists; reflexivity)|]);
     exists oi; cbn [ch_summary ch_description];
     (split; [reflexivity|split; [(left; discriminate) || (right; discriminate)|auto]])).
Qed.

Lemma update_loop_ok g u l s :
  exists rs, update_issues_loop g u l s = (Ok rs, s) /\
  Forall2 (fun k v => update_issue_step g u k s = (Ok v, s)) l rs.
Proof.
  induction l as [|k l IH]; simpl; [exists []; split; [reflexivity|constructor]|].
  destruct IH as (rs & E & F). destruct (update_step_ok g u k s) as (v & Ev & _).
  exists (v :: rs). unfold bind, ret. rewrite Ev, E. split; [reflexivity|now constructor].
Qed.

Lemma Forall2_in_r {A B} (R : A -> B -> Prop) l rs v :
  Forall2 R l rs -> In v rs -> exists k, In k l /\ R k v.
Proof.
  induction 1 as [|k v0 l rs H F IH]; [intros []|]. intros [<-|Hv].
  - exists k. split; [now left|exact H].
  - destruct (IH Hv) as (k' & Hk & Hr). exists k'. split; [now right|exact Hr].
Qed.

Lemma result_classes (l : list key_result) :
  length (filter is_success l) + length (filter is_error l) +
  length (filter (fun r => match r with KNoChanges _ => true | _ => false end) l) = length l.
Proof. induction l as [|[] l IH]; simpl; lia. Qed.

Lemma update_issues_calls g u keys s :
  exists results counts calls,
    update_issues g u keys s = (Ok (results, counts, calls), s) /\
    forall k ch, In (k, ch) calls ->
      In k keys /\ has_name (md k) (files s) /\
      exists o, g k = Ok o /\ (ch_summary ch <> None \/ ch_description ch <> None) /\
        (forall t, ch_summary ch = Some t -> t <> EmptyString /\ t <> summary o) /\
        (forall d, ch_description ch = Some d -> d <> EmptyString /\ d <> description o).
Proof.
  destruct (update_loop_ok g u keys s) as (rs & E & F).
  unfold update_issues, bind, ret. rewrite E. do 3 eexists. split; [reflexivity|].
  intros k ch Hin. apply in_flat_map in Hin as ([r c] & Hv & Hin).
  destruct (Forall2_in_r _ _ _ _ F Hv) as (k0 & Hk0 & Hs).
  destruct (update_step_ok g u k0 s) as (v & Ev & Hv').
  rewrite Hs in Ev. injection Ev as <-.
  assert (Ek : k = k0 /\ c = Some ch).
  { destruct r, c; simpl in Hin; try contradiction;
      destruct Hin as [[= <- <-]|[]];
      destruct (Hv' _ eq_refl) as (_ & (cl & [Ef|(e & Ef)]) & _); simpl in Ef;
      try discriminate Ef; injection Ef as <- ?; auto. }
  destruct Ek as [-> ->]. destruct (Hv' ch eq_refl) as (Hn & _ & Ho).
  split; [exact Hk0|split; [exact Hn|exact Ho]].
Qed.

(** [update-issues] never touches the task directory.  With no keys it
    answers with the error "No issue keys provided"; otherwise it never
    fails as a whole, and every [updateIssue] request it sends is for one of
    the given keys whose task file exists and whose remote issue was
    fetched; the request sets at least one field, a title only when it is
    non-empty and differs from the remote summary, a description only when
    it is non-empty and differs from the remote one. *)
Theorem update_issues_requests g u keys s :
  (keys = [] ->
   update_issues_tool g u keys s =
     (Err "No issue keys provided. Please specify at least one issue key.", s)) /\
  (keys <> [] ->
   exists results counts calls,
    update_issues_tool g u keys s = (Ok (results, counts, calls), s) /\
    forall k ch, In (k, ch) calls ->
      In k keys /\ has_name (md k) (files s) /\
      exists o, g k = Ok o /\ (ch_summary ch <> None \/ ch_description ch <> None) /\
        (forall t, ch_summary ch = Some t -> t <> EmptyString /\ t <> summary o) /\
        (forall d, ch_description ch = Some d -> d <> EmptyString /\ d <> description o)).
Proof.
  split; [intros ->; reflexivity|].
  intros Hk. destruct keys as [|k0 l]; [congruence|]. exact (update_issues_calls g u _ s).
Qed.

Lemma update_issues_requests_witness :
  let g := fun _ : string => Ok (sample_issue 1 "A-1" "Task" None) in
  let u := fun (_ : string) (_ : changes) => Ok tt in
  let s := sample_state [Dir "others" [File "A-1.md" "# New title"]] in
  update_issues_tool g u [] s =
    (Err "No issue keys provided. Please specify at least one issue key.", s) /\
  exists results counts calls,
    update_issues_tool g u ["A-1"] s = (Ok (results, counts, calls), s) /\
    In ("A-1", mkChanges (Some "New title") None) calls.
Proof.
  intros g u s. split; [exact (proj1 (update_issues_requests g u [] s) eq_refl)|].
  destruct (proj2 (update_issues_requests g u ["A-1"] s) ltac:(discriminate))
    as (results & counts & calls & E & _).
  exists results, counts, calls. split; [exact E|].
  assert (C : calls = match fst (update_issues_tool g u ["A-1"] s) with
                      | Ok (_, _, c) => c | Err _ => [] end) by (rewrite E; reflexivity).
  rewrite C. vm_compute. left. reflexivity.
Defined.

(** [update-issues] reports one line per key, and the number of keys it
    reports as skipped is exactly the number of "No changes detected"
    lines: every other line is counted as updated or as an error. *)
Theorem update_issues_summary_counts g u keys s :
  exists results succ err skipped calls,
    update_issues g u keys s = (Ok (results, (succ, err, skipped), calls), s) /\
    length results = length keys /\
    succ = length (filter is_success results) /\ err = length (filter is_error results) /\
    skipped = length (filter (fun r => match r with KNoChanges _ => true | _ => false end) results).
Proof.
  destruct (update_loop_ok g u keys s) as (rs & E & F).
  unfold update_issues, bind, ret. rewrite E. do 5 eexists. split; [reflexivity|].
  pose proof (Forall2_length F) as L. pose proof (result_classes (map fst rs)) as P.
  rewrite length_map in P |- *. split; [congruence|split; [reflexivity|split; [reflexivity|]]].
  lia.
Qed.

(** On a well-formed tree whose folders and files can all be read, after
    a successful [syncIssue] of an issue with no task file yet, whose
    summary has no line feed and whose summary and description have no
    surrounding white space, [update-issues] for its
    key against the unchanged remote issue finds no change and sends no
    request. *)
Theorem sync_then_update_sends_nothing g u i all s s1 :
  wf_tree (st_root s) = true -> st_unreadable s = [] -> ~ has_name (md (issueKey i)) (files s) ->
  has_char LF (summary i) = false ->
  trim (summary i) = summary i -> trim (description i) = description i ->
  syncIssue i all s = (Ok tt, s1) -> g (issueKey i) = Ok i ->
  update_issue_step g u (issueKey i) s1 = (Ok (KNoChanges (issueKey i), None), s1).
Proof.
  intros W U N Hl T1 T2 E G.
  unfold update_issue_step, bind. rewrite (syncIssue_read_back i all s s1 W U N Hl E).
  rewrite G, T1, T2. unfold compute_changes. rewrite !String.eqb_refl, andb_false_r.
  reflexivity.
Qed.

Lemma sync_then_update_sends_nothing_witness :
  let i := sample_issue 1 "A-1" "Task" None in
  let s1 := snd (syncIssue i [i] (sample_state [])) in
  update_issue_step (fun _ => Ok i) (fun _ _ => Ok tt) "A-1" s1 =
    (Ok (KNoChanges "A-1", None), s1).
Proof.
  intros i s1.
  apply (sync_then_update_sends_nothing (fun _ => Ok i) (fun _ _ => Ok tt) i [i] (sample_state []) s1).
  - reflexivity.
  - reflexivity.
  - intros (x & [] & _).
  - reflexivity.
  - reflexivity.
  - reflexivity.
  - vm_compute. reflexivity.
  - reflexivity.
Defined.

(** ** [initialize] *)

Lemma lookup_dir_set n sub sub' es :
  lookup_dir n es = Some sub -> lookup_dir n (set_dir n sub' es) = Some sub'.
Proof.
  induction es as [|[m c|m sub0] es IH]; simpl; [discriminate|exact IH|].
  destruct (String.eqb m n) eqn:E; [intros _; simpl; now rewrite E|].
  intros H. simpl. rewrite E. exact (IH H).
Qed.

Lemma lookup_dir_app_new n es sub' :
  lookup_dir n es = None -> lookup_dir n (es ++ [Dir n sub']) = Some sub'.
Proof.
  induction es as [|[m c|m sub0] es IH]; simpl; [now rewrite String.eqb_refl|exact IH|].
  destruct (String.eqb m n); [discriminate|exact IH].
Qed.

Lemma mkdir_in_get den p : forall cur es es',
  mkdir_in den cur p es = Ok es' -> get_dir p es' <> None.
Proof.
  induction p as [|n p IH]; intros cur es es' H; simpl in H; [simpl; discriminate|].
  destruct (lookup_dir n es) as [sub|] eqn:L.
  - destruct (mkdir_in den (cur ++ [n]) p sub) as [sub'|e] eqn:Mk; [|discriminate].
    injection H as <-. simpl. rewrite (lookup_dir_set _ _ sub' _ L). exact (IH _ _ _ Mk).
  - destruct (lookup_file n es); [destruct p; discriminate|]. destruct (den cur); [discriminate|].
    destruct (mkdir_in den (cur ++ [n]) p []) as [sub'|e] eqn:Mk; [|discriminate].
    injection H as <-. simpl. rewrite (lookup_dir_app_new _ _ sub' L). exact (IH _ _ _ Mk).
Qed.

Lemma ensureDir_get d s s' : ensureDir d s = (Ok tt, s') -> get_dir d (st_root s') <> None.
Proof.
  unfold ensureDir, bind, get, lift_fs.
  destruct (mkdir_in (is_denied s) [] d (st_root s)) as [es'|e] eqn:Mk; intros E;
    [|discriminate E].
  injection E as <-. exact (mkdir_in_get _ _ _ _ _ Mk).
Qed.

(** [initialize] never changes a file, and when it succeeds the task
    directory has an [others] folder. *)
Theorem initialize_creates_others s r s' :
  initialize s = (r, s') ->
  files s' = files s /\ (r = Ok tt -> get_dir ["others"] (st_root s') <> None).
Proof.
  unfold initialize. intros E. apply catch_cases in E as (r1 & s1 & E1 & E).
  apply bind_cases in E1 as (r2 & s2 & E2 & E1).
  apply ensureDir_spec in E2 as (_ & F2 & _).
  destruct r2 as [[]|e]; [|destruct E1 as [-> ->]; cbv beta in E; unfold throw in E;
                          injection E as <- <-; split; [exact F2|discriminate]].
  pose proof E1 as E1'. apply ensureDir_spec in E1' as (_ & F1 & _).
  destruct r1 as [[]|e]; [|cbv beta in E; unfold throw in E; injection E as <- <-;
                          split; [congruence|discriminate]].
  destruct E as [_ <-]. split; [congruence|intros _].
  exact (ensureDir_get _ _ _ E1).
Qed.

Lemma initialize_creates_others_witness :
  get_dir ["others"] (st_root (snd (initialize (sample_state [])))) <> None.
Proof.
  refine (proj2 (initialize_creates_others (sample_state []) (fst (initialize (sample_state [])))
                   (snd (initialize (sample_state []))) (surjective_pairing _)) _).
  reflexivity.
Defined.

(** Without an [others] folder in the task directory, [initialize] fails
    and changes nothing when a file is named [others] (EEXIST), or when the
    task directory is write-protected (EACCES); the error is wrapped in
    "Failed to initialize tasks directory". *)
Theorem initialize_failures s :
  lookup_dir "others" (st_root s) = None ->
  (lookup_file "others" (st_root s) <> None ->
   initialize s = (Err "Failed to initialize tasks directory: EEXIST", s)) /\
  (lookup_file "others" (st_root s) = None -> In [] (st_denied s) ->
   initialize s = (Err "Failed to initialize tasks directory: EACCES", s)).
Proof.
  destruct s as [rn root den un tr]. cbn [st_root st_denied]. intros L.
  unfold initialize, catch, bind, ensureDir, get, lift_fs, throw. cbn -[is_denied]. rewrite L. split.
  - intros Hf. destruct (lookup_file "others" root); [reflexivity|congruence].
  - intros Hf Hd. rewrite Hf.
    assert (is_denied (set_root (mkState rn root den un tr) root) [] = true) as ->; [|reflexivity].
    unfold is_denied. apply existsb_exists. exists []. split; [exact Hd|reflexivity].
Qed.

Lemma initialize_failures_witness :
  initialize (sample_state [File "others" "x"]) =
    (Err "Failed to initialize tasks directory: EEXIST", sample_state [File "others" "x"]).
Proof.
  apply (proj1 (initialize_failures (sample_state [File "others" "x"]) eq_refl)). discriminate.
Defined.

(** ** Issue tree and folder placement *)

Lemma issue_map_get issues p :
  NoDup (map id issues) -> In p issues -> jsmap_get Z.eqb (id p) (issue_map issues) = Some p.
Proof.
  intros Hn Hp. unfold issue_map.
  apply (jsmap_fold_all Z.eqb Z.eqb_eq _ id (fun i => i)); [reflexivity| |eauto].
  intros y Hy Ey. exact (nodup_map_inj id issues y p Hn Hy Hp Ey).
Qed.

(** With distinct keys and distinct ids, [buildIssueTreeMap] has a node for
    every issue: its children are exactly the issues of the set whose
    [parentIssueId] is the issue's id, and its parent is the issue of the
    set whose id is the issue's (non-zero) [parentIssueId]. *)
Theorem buildIssueTreeMap_links issues idm x :
  NoDup (map issueKey issues) -> NoDup (map id issues) -> In x issues ->
  exists nd, jsmap_get String.eqb (issueKey x) (buildIssueTreeMap issues idm) = Some nd /\
    n_issue nd = x /\
    (forall c, In c (n_children nd) <-> In c issues /\ parentIssueId c = Some (id x)) /\
    (forall p, In p issues -> parent_id_set x = Some (id p) -> n_parent nd = Some p).
Proof.
  intros Hk Hi Hx. eexists. split; [exact (issue_tree_get issues idm x Hk Hx)|].
  split; [reflexivity|split].
  - intros c. cbn [n_children tree_node]. rewrite filter_In. unfold is_child_of.
    destruct (parentIssueId c) as [q|]; [|split; [intros [_ ?]; discriminate|intros [_ ?]; discriminate]].
    rewrite Z.eqb_eq. split; [intros [H ->]; auto|intros [H E]; injection E as ->; auto].
  - intros p Hp Px. cbn [n_parent tree_node]. rewrite Px, (issue_map_get issues p Hi Hp).
    reflexivity.
Qed.

Lemma buildIssueTreeMap_links_witness :
  let I := [sample_issue 1 "A-1" "Task" None; sample_issue 2 "A-2" "Task" (Some 1%Z);
            sample_issue 3 "A-3" "Bug" (Some 1%Z)] in
  exists nd, jsmap_get String.eqb "A-2" (buildIssueTreeMap I no_keys) = Some nd /\
    n_issue nd = sample_issue 2 "A-2" "Task" (Some 1%Z) /\
    (forall c, In c (n_children nd) <-> In c I /\ parentIssueId c = Some 2%Z) /\
    (forall p, In p I -> parent_id_set (sample_issue 2 "A-2" "Task" (Some 1%Z)) = Some (id p) ->
               n_parent nd = Some p).
Proof.
  intros I. apply (buildIssueTreeMap_links I no_keys (sample_issue 2 "A-2" "Task" (Some 1%Z))).
  - apply names_distinct_NoDup. reflexivity.
  - repeat constructor; simpl; intuition lia.
  - right. left. reflexivity.
Defined.

Lemma search_in nr k s d :
  searchTaskFileRecursively nr k [] (st_root s) = Some d -> exists c, In (d, md k, c) (files s).
Proof.
  rewrite search_spec.
  destruct (find (named (md k)) (vfiles_in nr [] (st_root s))) as [x|] eqn:F; [|discriminate].
  intros [= <-]. apply find_named_some in F as [Hx Nx]. apply vfiles_sub in Hx.
  destruct x as [[d0 n] c]. unfold fname in Nx. simpl in Nx. subst n. now exists c.
Qed.

(** [getIssueFolderPath] only ever picks one of five folders: [others]; the
    folder named after the issue's own key; the folder named after its
    parent's key; the custom parent folder ([PROJ-1-feature]) that already
    holds the parent's task file; or the folder that already holds the
    issue's task file, when that folder is not [others] and its name is not
    a bare key or is a custom parent folder. *)
Theorem getIssueFolderPath_choices i all s d :
  getIssueFolderPath i all s = (Ok d, s) ->
  d = ["others"] \/ d = [issueKey i] \/
  (exists p, In p all /\ parent_id_set i = Some (id p) /\ d = [issueKey p]) \/
  (exists p c, In p all /\ parent_id_set i = Some (id p) /\
               In (d, md (issueKey p), c) (files s) /\ isCustomParentFolder (basename s d) = true) \/
  (exists c, In (d, md (issueKey i), c) (files s) /\ basename s d <> "others" /\
             (bare_key (basename s d) = false \/ isCustomParentFolder (basename s d) = true)).
Proof.
  unfold getIssueFolderPath, bind, get, ret. rewrite findExisting_eq. cbv zeta.
  assert (Par : match parent_id_set i with
                | Some pid =>
                    match find (fun x => Z.eqb (id x) pid) all with
                    | Some parent =>
                        fun s0 : state =>
                        let (r, s') := findExistingTaskFile (issueKey parent) s0 in
                        match r with
                        | Ok a =>
                            match a with
                            | Some parentDir =>
                                if isCustomParentFolder (basename s parentDir)
                                then fun s1 : state => (Ok parentDir, s1)
                                else fun s1 : state => (Ok [issueKey parent], s1)
                            | None => fun s1 : state => (Ok [issueKey parent], s1)
                            end s'
                        | Err e => (Err e, s')
                        end
                    | None => fun s0 : state => (Ok ["others"], s0)
                    end
                | None => fun s0 => (Err EmptyString, s0)
                end s = (Ok d, s) ->
                d = ["others"] \/
                (exists p, In p all /\ parent_id_set i = Some (id p) /\ d = [issueKey p]) \/
                (exists p c, In p all /\ parent_id_set i = Some (id p) /\
                   In (d, md (issueKey p), c) (files s) /\
                   isCustomParentFolder (basename s d) = true)).
  { destruct (parent_id_set i) as [pid|] eqn:Pi; [|discriminate].
    destruct (find (fun x => Z.eqb (id x) pid) all) as [p|] eqn:Fp; [|intros [= <-]; now left].
    apply find_some in Fp as [Hp Ip]. apply Z.eqb_eq in Ip. subst pid.
    rewrite findExisting_eq.
    destruct (searchTaskFileRecursively (is_unreadable s) (issueKey p) [] (st_root s))
      as [pd|] eqn:S2;
      [destruct (isCustomParentFolder (basename s pd)) eqn:Cp|]; intros [= <-].
    - right. right. destruct (search_in _ _ _ _ S2) as [c Hc]. exists p, c. auto.
    - right. left. exists p. auto.
    - right. left. exists p. auto. }
  destruct (searchTaskFileRecursively (is_unreadable s) (issueKey i) [] (st_root s))
    as [cd|] eqn:S1.
  - destruct (search_in _ _ _ _ S1) as [c Hc].
    destruct (negb (String.eqb (basename s cd) "others") &&
              (negb (bare_key (basename s cd)) || isCustomParentFolder (basename s cd)))
      eqn:C.
    + intros [= <-]. right. right. right. right. exists c. split; [exact Hc|].
      apply andb_prop in C as [C1 C2]. apply negb_true_iff, String.eqb_neq in C1.
      split; [exact C1|]. apply orb_prop in C2 as [C2|C2]; [left; now apply negb_true_iff|now right].
    + destruct (parent_id_set i) as [pid|] eqn:Pi.
      * intros E. destruct (Par E) as [H|[H|H]]; auto.
      * destruct (existsb (fun child => is_child_of child i) all);
          [destruct (isCustomParentFolder (basename s cd)) eqn:Cp|]; intros [= <-]; auto.
        right. right. right. right. exists c. split; [exact Hc|]. split; [|now right].
        intros Eo. rewrite Eo in Cp. discriminate Cp.
  - destruct (parent_id_set i) as [pid|] eqn:Pi.
    + intros E. destruct (Par E) as [H|[H|H]]; auto.
    + destruct (existsb (fun child => is_child_of child i) all); intros [= <-]; auto.
Qed.

Lemma getIssueFolderPath_choices_witness :
  let s := sample_state [Dir "A-1-login" [File "A-1.md" "# Parent"]] in
  let I := [sample_issue 1 "A-1" "Task" None; sample_issue 2 "A-2" "Task" (Some 1%Z)] in
  let d := ["A-1-login"] in
  d = ["others"] \/ d = ["A-2"] \/
  (exists p, In p I /\ parent_id_set (sample_issue 2 "A-2" "Task" (Some 1%Z)) = Some (id p) /\
             d = [issueKey p]) \/
  (exists p c, In p I /\ parent_id_set (sample_issue 2 "A-2" "Task" (Some 1%Z)) = Some (id p) /\
               In (d, md (issueKey p), c) (files s) /\ isCustomParentFolder (basename s d) = true) \/
  (exists c, In (d, md "A-2", c) (files s) /\ basename s d <> "others" /\
             (bare_key (basename s d) = false \/ isCustomParentFolder (basename s d) = true)).
Proof.
  intros s I d.
  apply (getIssueFolderPath_choices (sample_issue 2 "A-2" "Task" (Some 1%Z)) I s d).
  vm_compute. reflexivity.
Defined.

(** ** The [task-file] resource *)

(** On a task directory whose folders can all be listed, the
    [task://{key}] resource changes nothing; it fails with "Task file for
    [key] not found" when no file is named [{key}.md] anywhere in the task
    directory, and otherwise reports the path [{tasksDir}/{key}.md], at the
    top of the task directory, whatever folder the file is in. *)
Theorem task_file_resource_spec tasksDir key s :
  st_unreadable s = [] ->
  (~ has_name (md key) (files s) ->
   task_file_resource tasksDir key s =
     (Err ("Failed to read task file: Error: Task file for " ++ key ++ " not found")%string, s)) /\
  (has_name (md key) (files s) ->
   task_file_resource tasksDir key s =
     (Ok ("Task file for " ++ key ++ " located at " ++ tasksDir ++ "/" ++ key ++ ".md")%string, s)).
Proof.
  intros U. destruct (taskFileExists_found key s) as (b & E & Hb).
  rewrite (visible_files_all s U) in Hb.
  unfold task_file_resource, catch, bind. rewrite E. split.
  - intros N. destruct b; [exfalso; apply N, Hb; reflexivity|reflexivity].
  - intros H. destruct b; [reflexivity|]. apply Hb in H. discriminate H.
Qed.

Lemma task_file_resource_spec_witness :
  let s := sample_state [Dir "sprint-3" [File "A-1.md" "# Fix login"]] in
  task_file_resource "/repo/.tasks" "A-1" s =
    (Ok "Task file for A-1 located at /repo/.tasks/A-1.md", s).
Proof.
  intros s. apply (proj2 (task_file_resource_spec "/repo/.tasks" "A-1" s eq_refl)).
  exists (["sprint-3"], "A-1.md", "# Fix login"). split; [left; reflexivity|reflexivity].
Defined.

(** ** The [sync-issues] tool end to end *)

(** When the [sync-issues] tool succeeds, every fetched issue that the
    ignore list lets through has a task file at the end: the orphan cleanup
    of a full sync never removes a file that the sync has just written. *)
Theorem sync_issues_tool_success_keeps_synced lastSync issues ign idm json s s' :
  sync_issues_tool lastSync issues ign idm json s = (Ok tt, s') ->
  forall j, In j (filterIgnoredIssueTypes issues ign) -> has_name (md (issueKey j)) (files s').
Proof.
  intros E j Hj. unfold sync_issues_tool in E.
  apply bind_cases in E as (r1 & s1 & E1 & E).
  destruct r1 as [[]|e]; [|destruct E as [E _]; discriminate].
  apply bind_cases in E as (r2 & s2 & E2 & E).
  destruct r2 as [[]|e]; [|destruct E as [E _]; discriminate].
  pose proof (syncIssues_has _ _ _ _ _ E2 j Hj) as (x & Hx & Nx).
  apply bind_cases in E as (r3 & s3 & E3 & E).
  assert (H3 : In x (files s3)).
  { destruct (truthy_str lastSync).
    - unfold ret in E3. injection E3 as _ <-. exact Hx.
    - pose proof (proj2 (cleanup_frame_current (map issueKey issues) s2 r3 s3 E3)) as F.
      assert (Px : negb (task_key_outside (map issueKey issues) x) = true).
      { unfold task_key_outside. destruct (is_task_file x) eqn:T; [|reflexivity].
        unfold is_task_file in T. rewrite Nx in T. apply andb_prop in T as [_ T].
        rewrite Nx, strip_md_md by exact (task_file_name_md_nonempty _ T).
        assert (existsb (String.eqb (issueKey j)) (map issueKey issues) = true) as ->;
          [|reflexivity].
        apply existsb_exists. exists (issueKey j). split; [|apply String.eqb_refl].
        apply in_map. exact (proj1 (proj1 (filterIgnored_spec issues ign j) Hj)). }
      assert (In x (filter (fun x => negb (task_key_outside (map issueKey issues) x)) (files s3)))
        as Hf by (unfold frame in F; rewrite F; apply filter_In; auto).
      exact (proj1 (proj1 (filter_In _ _ _) Hf)). }
  destruct r3 as [[]|e]; [|destruct E as [E _]; discriminate].
  assert (G : inv_prog (files_rel grows) (catch (writeFile [] ".last-sync" json) (fun _ => ret tt))).
  { apply inv_catch; [typeclasses eauto|apply inv_writeFile_grows|].
    intros _. apply inv_readonly; [typeclasses eauto|apply readonly_ret]. }
  apply (proj2 (G s3 _ s' E)). exists x. auto.
Qed.

Lemma sync_issues_tool_success_keeps_synced_witness :
  let I := [sample_issue 1 "A-1" "Task" None] in
  let s := sample_state [Dir "others" [File "Z-9.md" "# Gone"]] in
  has_name "A-1.md" (files (snd (sync_issues_tool None I [] no_keys "{}" s))).
Proof.
  intros I s.
  apply (sync_issues_tool_success_keeps_synced None I [] no_keys "{}" s
           (snd (sync_issues_tool None I [] no_keys "{}" s)))
    with (j := sample_issue 1 "A-1" "Task" None).
  - vm_compute. reflexivity.
  - left. reflexivity.
Defined.

(** ** [initialize] on a prepared directory *)

Lemma set_dir_same n sub es : lookup_dir n es = Some sub -> set_dir n sub es = es.
Proof.
  intros L. destruct (lookup_dir_split _ _ _ L) as (e1 & e2 & E & Hs). rewrite Hs. now rewrite E.
Qed.

(** Once the task directory has an [others] folder, [initialize] succeeds
    and leaves the tree as it is, even when folders are write-protected:
    running it again is harmless. *)
Theorem initialize_idempotent s sub :
  lookup_dir "others" (st_root s) = Some sub ->
  initialize s = (Ok tt, s).
Proof.
  destruct s as [rn root den un tr]. cbn [st_root]. intros L.
  unfold initialize, catch, bind, ensureDir, get, lift_fs. cbn -[is_denied set_dir].
  rewrite L. cbn -[set_dir]. rewrite (set_dir_same _ _ _ L). reflexivity.
Qed.

Lemma initialize_idempotent_witness :
  let s := mkState "tasks" [Dir "others" [File "A-1.md" "# A"]] [[]; ["others"]] [] [] in
  initialize s = (Ok tt, s).
Proof. intros s. apply (initialize_idempotent s [File "A-1.md" "# A"]). reflexivity. Defined.
